(** * tsuru: the fake router and the application aggregate

    A shallow embedding of [router/routertest/router.go] (the in-memory
    router used as the routing registry) and of the application aggregate
    ([package app]: teams, units, environment, hooks, name validation),
    followed by the properties established about them.

    Conventions.
    - A Go [map[string]T] is a [gmap string T]; reading an absent key of a
      [map[string]bool] yields [false], of a [map[string][]string] the nil
      slice, modelled as [[]].
    - A Go slice is a [list]; [append(s, x)] is [s ++ [x]], [s[:i]] is
      [take i s], [s[i:]] is [drop i s].  A read or write outside the
      bounds of a slice panics in Go: [Find], [Grant] and [Revoke], which
      index the teams at computed positions, return [None] for a panic;
      the other functions index a slice at positions handed out by a
      [range] loop over that slice, which are within its bounds.
    - A Go [error] result is an [option error], [None] standing for [nil].
    - The mutex of the fake router serialises whole operations; the model
      is sequential and leaves it out. *)

From Stdlib Require Import ZArith List String Ascii Bool Lia Sorted.
From stdpp Require Import base option list gmap strings fin_maps.

Local Open Scope string_scope.
Local Open Scope list_scope.

(** ** Errors *)

(** The sentinel errors of package [router], [ErrForcedFailure] of the fake
    router, [ValidationError] of package [app], errors built in place with
    [errors.New], and errors handed back by a collaborator. *)
Inductive error : Type :=
  | ErrForcedFailure
  | ErrBackendExists
  | ErrBackendNotFound
  | ErrBackendSwapped
  | ErrRouteExists
  | ErrRouteNotFound
  | ErrCNameExists
  | ErrCNameNotFound
  | ErrCNameNotAllowed
  | ValidationError (Message : string)
  | errors_New (text : string)
  | ErrCollaborator (text : string).

(** ** The fake router *)

(** Modelled from the spec: the parts of package [router] that the fake
    router calls and that are not among the sources: the opaque health
    payload [router.HealthcheckData] with its zero value, and the
    domain-validity check [router.ValidCName cname domain]. *)
Class RouterPkg : Type := {
  HealthcheckData : Type;
  zeroHealthcheckData : HealthcheckData;
  ValidCName : string -> string -> bool
}.

Section FakeRouter.
Context `{RouterPkg}.

(** [type fakeRouter struct], without its mutex. *)
Record fakeRouter : Type := mkFakeRouter {
  backends : gmap string (list string);
  cnames : gmap string string;
  failuresByIp : gmap string bool;
  healthcheck : gmap string HealthcheckData
}.

(** The router together with the name-resolution record it consults. *)
Record registry : Type := mkRegistry {
  fake : fakeRouter;
  resolution : gmap string string
}.

(** Modelled from the spec: [router.Retrieve], the query of the durable
    mapping from application name to backend name; a name with no record
    is a resolution failure, reported as a not-found error. *)
Definition Retrieve (name : string) (g : registry) : error + string :=
  match resolution g !! name with
  | Some backendName => inr backendName
  | None => inl ErrBackendNotFound
  end.

(** Modelled from the spec: [router.Store appName routerName kind], which
    writes the name-resolution record of [appName]. *)
Definition Store (appName routerName kind : string) (g : registry)
  : registry * option error :=
  (mkRegistry (fake g) (<[appName := routerName]> (resolution g)), None).

(** Modelled from the spec: [router.Remove appName], which removes the
    name-resolution record of [appName]. *)
Definition Remove (appName : string) (g : registry) : registry * option error :=
  (mkRegistry (fake g) (delete appName (resolution g)), None).

Definition newFakeRouter : fakeRouter :=
  mkFakeRouter ∅ ∅ ∅ ∅.

Definition with_backends (b : gmap string (list string)) (r : fakeRouter) : fakeRouter :=
  mkFakeRouter b (cnames r) (failuresByIp r) (healthcheck r).

Definition with_cnames (c : gmap string string) (r : fakeRouter) : fakeRouter :=
  mkFakeRouter (backends r) c (failuresByIp r) (healthcheck r).

Definition with_fake (r : fakeRouter) (g : registry) : registry :=
  mkRegistry r (resolution g).

(** [r.failuresByIp[ip]]: the zero value [false] for an absent key. *)
Definition failing (r : fakeRouter) (ip : string) : bool :=
  default false (failuresByIp r !! ip).

(** [r.backends[name]] read as a value: nil for an absent key. *)
Definition routesOf (r : fakeRouter) (name : string) : list string :=
  default [] (backends r !! name).

Definition FailForIp (ip : string) (r : fakeRouter) : fakeRouter :=
  mkFakeRouter (backends r) (cnames r) (<[ip := true]> (failuresByIp r)) (healthcheck r).

Definition RemoveFailForIp (ip : string) (r : fakeRouter) : fakeRouter :=
  mkFakeRouter (backends r) (cnames r) (delete ip (failuresByIp r)) (healthcheck r).

Definition GetHealthcheck (name : string) (r : fakeRouter) : HealthcheckData :=
  default zeroHealthcheckData (healthcheck r !! name).

Definition HasBackend (name : string) (r : fakeRouter) : bool :=
  match backends r !! name with Some _ => true | None => false end.

Definition HasCName (name : string) (r : fakeRouter) : bool :=
  match cnames r !! name with Some _ => true | None => false end.

(** [for _, route := range routes { if route == address { return true } }]. *)
Fixpoint hasAddress (routes : list string) (address : string) : bool :=
  match routes with
  | [] => false
  | route :: rest => if String.eqb route address then true else hasAddress rest address
  end.

Definition HasRoute (name address : string) (r : fakeRouter) : bool :=
  match backends r !! name with
  | Some routes => hasAddress routes address
  | None =>
      match backends r !! default "" (cnames r !! name) with
      | Some routes => hasAddress routes address
      | None => false
      end
  end.

Definition AddBackend (name : string) (g : registry) : registry * option error :=
  if HasBackend name (fake g) then (g, Some ErrBackendExists)
  else Store name name "fake" (with_fake (with_backends (<[name := []]> (backends (fake g))) (fake g)) g).

(** [for cname, backend := range r.cnames { if backend == backendName
    { delete(r.cnames, cname) } }]. *)
Definition purgeCNames (backendName : string) (c : gmap string string) : gmap string string :=
  filter (fun kv => snd kv <> backendName) c.

Definition RemoveBackend (name : string) (g : registry) : registry * option error :=
  match Retrieve name g with
  | inl err => (g, Some err)
  | inr backendName =>
      if negb (String.eqb backendName name) then (g, Some ErrBackendSwapped)
      else if negb (HasBackend backendName (fake g)) then (g, Some ErrBackendNotFound)
      else
        let r := fake g in
        let r := with_cnames (purgeCNames backendName (cnames r)) r in
        let r := with_backends (delete backendName (backends r)) r in
        Remove backendName (with_fake r g)
  end.

(** The first loop of [AddRoutes] and of [RemoveRoutes]:
    [for _, addr := range addresses { if r.failuresByIp[addr.String()]
    { return ErrForcedFailure } }]. *)
Fixpoint anyFailing (r : fakeRouter) (addresses : list string) : bool :=
  match addresses with
  | [] => false
  | addr :: rest => if failing r addr then true else anyFailing r rest
  end.

(** The labelled loop of [AddRoutes]: an address found among the routes
    collected so far is skipped, any other is appended. *)
Fixpoint addAll (routes addresses : list string) : list string :=
  match addresses with
  | [] => routes
  | addr :: rest =>
      if hasAddress routes addr then addAll routes rest
      else addAll (routes ++ [addr]) rest
  end.

(** [AddRoutes]; an address is the text [addr.String()] of its URL. *)
Definition AddRoutes (name : string) (addresses : list string) (g : registry)
  : registry * option error :=
  match Retrieve name g with
  | inl err => (g, Some err)
  | inr backendName =>
      if negb (HasBackend backendName (fake g)) then (g, Some ErrBackendNotFound)
      else if anyFailing (fake g) addresses then (g, Some ErrForcedFailure)
      else
        let routes := addAll (routesOf (fake g) backendName) addresses in
        (with_fake (with_backends (<[backendName := routes]> (backends (fake g))) (fake g)) g, None)
  end.

(** [for i := range routes { if routes[i] == address { ... break } }]: the
    first index at which [address] stands, counted from [i]. *)
Fixpoint indexFrom (i : nat) (routes : list string) (address : string) : option nat :=
  match routes with
  | [] => None
  | route :: rest =>
      if String.eqb route address then Some i else indexFrom (S i) rest address
  end.

(** The second loop of [RemoveRoutes]:
    [routes = append(routes[:i], routes[i+1:]...)] at the first match. *)
Fixpoint removeAll (routes addresses : list string) : list string :=
  match addresses with
  | [] => routes
  | addr :: rest =>
      match indexFrom 0 routes addr with
      | Some i => removeAll (take i routes ++ drop (S i) routes) rest
      | None => removeAll routes rest
      end
  end.

Definition RemoveRoutes (name : string) (addresses : list string) (g : registry)
  : registry * option error :=
  match Retrieve name g with
  | inl err => (g, Some err)
  | inr backendName =>
      if negb (HasBackend backendName (fake g)) then (g, Some ErrBackendNotFound)
      else if anyFailing (fake g) addresses then (g, Some ErrForcedFailure)
      else
        let routes := removeAll (routesOf (fake g) backendName) addresses in
        (with_fake (with_backends (<[backendName := routes]> (backends (fake g))) (fake g)) g, None)
  end.

Definition AddRoute (name address : string) (g : registry) : registry * option error :=
  match Retrieve name g with
  | inl err => (g, Some err)
  | inr backendName =>
      if negb (HasBackend backendName (fake g)) then (g, Some ErrBackendNotFound)
      else if HasRoute backendName address (fake g) then (g, Some ErrRouteExists)
      else if failing (fake g) address then (g, Some ErrForcedFailure)
      else
        let routes := routesOf (fake g) backendName ++ [address] in
        (with_fake (with_backends (<[backendName := routes]> (backends (fake g))) (fake g)) g, None)
  end.

(** [RemoveRoute]: [routes[index] = routes[len(routes)-1]] and then
    [routes[:len(routes)-1]]; both indexes are in range once an index was
    found. *)
Definition RemoveRoute (name address : string) (g : registry) : registry * option error :=
  match Retrieve name g with
  | inl err => (g, Some err)
  | inr backendName =>
      if negb (HasBackend backendName (fake g)) then (g, Some ErrBackendNotFound)
      else if failing (fake g) address then (g, Some ErrForcedFailure)
      else
        let routes := routesOf (fake g) backendName in
        match indexFrom 0 routes address with
        | None => (g, Some ErrRouteNotFound)
        | Some index =>
            let routes := <[index := default "" (last routes)]> routes in
            let routes := take (length routes - 1) routes in
            (with_fake (with_backends (<[backendName := routes]> (backends (fake g))) (fake g)) g, None)
        end
  end.

Definition SetCName (cname name : string) (g : registry) : registry * option error :=
  match Retrieve name g with
  | inl err => (g, Some err)
  | inr backendName =>
      if negb (HasBackend backendName (fake g)) then (g, None)
      else if negb (ValidCName cname "fakerouter.com") then (g, Some ErrCNameNotAllowed)
      else
        match cnames (fake g) !! cname with
        | Some _ => (g, Some ErrCNameExists)
        | None => (with_fake (with_cnames (<[cname := backendName]> (cnames (fake g))) (fake g)) g, None)
        end
  end.

Definition UnsetCName (cname name : string) (g : registry) : registry * option error :=
  match Retrieve name g with
  | inl err => (g, Some err)
  | inr backendName =>
      if negb (HasBackend backendName (fake g)) then (g, None)
      else
        match cnames (fake g) !! cname with
        | None => (g, Some ErrCNameNotFound)
        | Some _ => (with_fake (with_cnames (delete cname (cnames (fake g))) (fake g)) g, None)
        end
  end.

Definition Addr (name : string) (g : registry) : error + string :=
  match Retrieve name g with
  | inl err => inl err
  | inr backendName =>
      match backends (fake g) !! backendName with
      | Some _ => inr (String.append backendName ".fakerouter.com")
      | None => inl ErrBackendNotFound
      end
  end.

Definition Reset (r : fakeRouter) : fakeRouter := newFakeRouter.

Definition SetHealthcheck (name : string) (data : HealthcheckData) (g : registry)
  : registry * option error :=
  match Retrieve name g with
  | inl err => (g, Some err)
  | inr backendName =>
      let r := fake g in
      (with_fake (mkFakeRouter (backends r) (cnames r) (failuresByIp r)
                    (<[backendName := data]> (healthcheck r))) g, None)
  end.

End FakeRouter.

(** ** Sequences of calls

    The operations of the fake router as data, to speak of the registries
    that sequences of calls build.  [Swap] hands over to [router.Swap],
    which is not among the sources, and is left out. *)
Section FakeRouterCalls.
Context `{RouterPkg}.

Inductive call : Type :=
  | CallAddBackend (name : string)
  | CallRemoveBackend (name : string)
  | CallAddRoutes (name : string) (addresses : list string)
  | CallRemoveRoutes (name : string) (addresses : list string)
  | CallAddRoute (name address : string)
  | CallRemoveRoute (name address : string)
  | CallSetCName (cname name : string)
  | CallUnsetCName (cname name : string)
  | CallSetHealthcheck (name : string) (data : HealthcheckData)
  | CallFailForIp (ip : string)
  | CallRemoveFailForIp (ip : string)
  | CallReset.

(** The registry a call leaves, whatever it returns. *)
Definition perform (c : call) (g : registry) : registry :=
  match c with
  | CallAddBackend name => fst (AddBackend name g)
  | CallRemoveBackend name => fst (RemoveBackend name g)
  | CallAddRoutes name addresses => fst (AddRoutes name addresses g)
  | CallRemoveRoutes name addresses => fst (RemoveRoutes name addresses g)
  | CallAddRoute name address => fst (AddRoute name address g)
  | CallRemoveRoute name address => fst (RemoveRoute name address g)
  | CallSetCName cname name => fst (SetCName cname name g)
  | CallUnsetCName cname name => fst (UnsetCName cname name g)
  | CallSetHealthcheck name data => fst (SetHealthcheck name data g)
  | CallFailForIp ip => with_fake (FailForIp ip (fake g)) g
  | CallRemoveFailForIp ip => with_fake (RemoveFailForIp ip (fake g)) g
  | CallReset => with_fake (Reset (fake g)) g
  end.

Fixpoint performAll (calls : list call) (g : registry) : registry :=
  match calls with
  | [] => g
  | c :: rest => performAll rest (perform c g)
  end.

(** Every alias points at a registered backend. *)
Definition aliases_registered (g : registry) : Prop :=
  forall cname backend, cnames (fake g) !! cname = Some backend ->
    HasBackend backend (fake g) = true.

End FakeRouterCalls.

(** ** Regular expressions

    The fragment of the syntax of Go's [regexp] package that the sources
    use, with a matcher that enumerates the ways an expression can match at
    a position.  A position is the text that is left together with a flag
    telling whether it is the beginning of the text.  The classes used are
    ranges of ASCII characters, which no byte of a multi-byte rune matches,
    so matching bytes and matching runes agree. *)
Module regexp.

Inductive Regexp : Type :=
  | BeginText
  | EndText
  | CharClass (ranges : list (ascii * ascii))
  | Concat (r1 r2 : Regexp)
  | Repeat (r : Regexp) (min max : nat).

Definition inRange (c : ascii) (range : ascii * ascii) : bool :=
  Ascii.leb (fst range) c && Ascii.leb c (snd range).

Definition inClass (ranges : list (ascii * ascii)) (c : ascii) : bool :=
  existsb (inRange c) ranges.

Definition position : Type := bool * string.

(** [repeatFrom step max min p]: between [min] and [max] rounds of [step],
    started at [p]. *)
Fixpoint repeatFrom (step : position -> list position) (max min : nat) (p : position)
  : list position :=
  (match min with O => [p] | S _ => [] end) ++
  match max with
  | O => []
  | S max' => flat_map (repeatFrom step max' (Nat.pred min)) (step p)
  end.

Fixpoint run (r : Regexp) (p : position) : list position :=
  match r with
  | BeginText => if fst p then [p] else []
  | EndText => match snd p with EmptyString => [p] | String _ _ => [] end
  | CharClass ranges =>
      match snd p with
      | EmptyString => []
      | String c rest => if inClass ranges c then [(false, rest)] else []
      end
  | Concat r1 r2 => flat_map (run r2) (run r1 p)
  | Repeat r' min max => repeatFrom (run r') max min p
  end.

(** The positions of a text, the first one flagged. *)
Fixpoint positionsFrom (start : bool) (s : string) : list position :=
  (start, s) ::
  match s with
  | EmptyString => []
  | String _ rest => positionsFrom false rest
  end.

(** [MatchString]: the expression matches somewhere in the text. *)
Definition MatchString (r : Regexp) (s : string) : bool :=
  existsb (fun p => match run r p with [] => false | _ :: _ => true end)
          (positionsFrom true s).

End regexp.

(** ** Package [sort] *)

(** [sort.Search n f] of Go's library: binary search for the least index in
    [0, n) at which [f] holds.  The interval [i, j) shrinks at every round,
    so [n] rounds are enough; [f] may panic ([None]). *)
Fixpoint searchLoop (rounds i j : nat) (f : nat -> option bool) : option nat :=
  match rounds with
  | O => Some i
  | S rounds' =>
      if (i <? j)%nat then
        let h := Nat.div2 (i + j) in
        match f h with
        | None => None
        | Some false => searchLoop rounds' (h + 1) j f
        | Some true => searchLoop rounds' i h f
        end
      else Some i
  end.

Definition sort_Search (n : nat) (f : nat -> option bool) : option nat :=
  searchLoop n 0 n f.

(** ** The application aggregate *)

Module auth.
(** Modelled from the spec: [auth.Team], of which the aggregate reads the
    name only. *)
Record Team : Type := mkTeam { Name : string }.
End auth.

Module bind.
(** Modelled from the spec: [bind.EnvVar], an environment variable with its
    value, its visibility and the service instance that owns it. *)
Record EnvVar : Type := mkEnvVar {
  Name : string;
  Value : string;
  Public : bool;
  InstanceName : string
}.
End bind.

(** Modelled from the spec: [type Unit], declared in another file of the
    package; a unit descriptor with the machine it runs on, its identifier
    and its host address.  Its back pointer to the application is left
    out. *)
Record Unit : Type := mkUnit {
  Machine : Z;
  UnitName : string;
  Ip : string
}.

Record Applog : Type := mkApplog {
  Date : Z;
  Message : string;
  Source : string
}.

Record conf : Type := mkConf {
  PreRestart : list string;
  PosRestart : list string
}.

(** [type App struct]; [hooks] is a pointer, [None] when nil. *)
Record App : Type := mkApp {
  Env : gmap string bind.EnvVar;
  Framework : string;
  Logs : list Applog;
  Name : string;
  State : string;
  Units : list Unit;
  Teams : list string;
  hooks : option conf
}.

(** The steps of the creation pipeline. *)
Inductive action : Type :=
  | insertApp
  | createBucketIam
  | createRepository
  | provision.

(** Modelled from the spec: the collaborators of the aggregate that are not
    among the sources.  [execute] is the action pipeline executor, running
    over the state [World] of the store and of the infrastructure;
    [db_Update] persists a record; [Command a u cmd] runs a command on a
    unit and yields what it wrote and its error; [GetPath] is
    [repository.GetPath]; [Unmarshal] is [goyaml.Unmarshal] filling a
    [conf]; [FilterOutput] is [juju.FilterOutput]; [enqueue] publishes the
    regeneration request for an application name; [errorText] is the
    [Error()] text of an error; [time_Now] is the clock. *)
Class AppPkg : Type := {
  World : Type;
  execute : App -> list action -> World -> World * option error;
  db_Update : App -> option error;
  Command : App -> Unit -> string -> string * option error;
  GetPath : error + string;
  path_Join : string -> string -> string;
  Unmarshal : string -> conf -> conf * option error;
  FilterOutput : string -> string;
  enqueue : string -> option error;
  errorText : error -> string;
  time_Now : Z
}.

Section Application.
Context `{AppPkg}.

Definition with_Env (e : gmap string bind.EnvVar) (a : App) : App :=
  mkApp e (Framework a) (Logs a) (Name a) (State a) (Units a) (Teams a) (hooks a).

Definition with_Logs (l : list Applog) (a : App) : App :=
  mkApp (Env a) (Framework a) l (Name a) (State a) (Units a) (Teams a) (hooks a).

Definition with_Units (u : list Unit) (a : App) : App :=
  mkApp (Env a) (Framework a) (Logs a) (Name a) (State a) u (Teams a) (hooks a).

Definition with_Teams (t : list string) (a : App) : App :=
  mkApp (Env a) (Framework a) (Logs a) (Name a) (State a) (Units a) t (hooks a).

Definition with_hooks (h : option conf) (a : App) : App :=
  mkApp (Env a) (Framework a) (Logs a) (Name a) (State a) (Units a) (Teams a) h.

(** [s[i] = v]: a panic ([None]) when [i] is out of range. *)
Definition store {A : Type} (s : list A) (i : nat) (v : A) : option (list A) :=
  if (i <? length s)%nat then Some (<[i := v]> s) else None.

(** [copy(dst, src)]: as many elements as both hold are copied. *)
Definition copy {A : Type} (dst src : list A) : list A :=
  let n := Nat.min (length dst) (length src) in
  take n src ++ drop n dst.

(** [strings.Split(s, "\n")]. *)
Fixpoint splitLines (s : string) : list string :=
  match s with
  | EmptyString => [EmptyString]
  | String c rest =>
      if Ascii.eqb c "010"%char then EmptyString :: splitLines rest
      else
        match splitLines rest with
        | line :: lines => String c line :: lines
        | [] => [String c EmptyString]
        end
  end.

(** The loop of [Log]: one entry for every line that filtering leaves
    non-empty. *)
Fixpoint appendLogs (logs : list Applog) (messages : list string) (source : string)
  : list Applog :=
  match messages with
  | [] => logs
  | msg :: rest =>
      if (0 <? String.length (FilterOutput msg))%nat
      then appendLogs (logs ++ [mkApplog time_Now msg source]) rest source
      else appendLogs logs rest source
  end.

Definition Log (message source : string) (a : App) : App * option error :=
  let a := with_Logs (appendLogs (Logs a) (splitLines message) source) a in
  (a, db_Update a).

(** The loop of [AddUnit]: the first unit on the machine of [u] is
    overwritten in place; [None] when the loop ends without a match. *)
Fixpoint replaceUnit (units : list Unit) (u : Unit) : option (list Unit) :=
  match units with
  | [] => None
  | unt :: rest =>
      if Z.eqb (Machine unt) (Machine u) then Some (u :: rest)
      else option_map (cons unt) (replaceUnit rest u)
  end.

Definition AddUnit (u : Unit) (a : App) : App :=
  match replaceUnit (Units a) u with
  | Some units => with_Units units a
  | None => with_Units (Units a ++ [u]) a
  end.

(** [Find]: [a.Teams[i] >= team.Name] is the predicate handed to the
    search; strings are ordered byte by byte. *)
Definition Find (team : auth.Team) (a : App) : option (nat * bool) :=
  match sort_Search (length (Teams a))
          (fun i => option_map (String.leb (auth.Name team)) (Teams a !! i)) with
  | None => None
  | Some pos =>
      if (pos <? length (Teams a))%nat then
        match Teams a !! pos with
        | Some t => Some (pos, String.eqb t (auth.Name team))
        | None => None
        end
      else Some (pos, false)
  end.

(** The loop of [Grant], [for i := pos; i < len(a.Teams)-1; i++], run for
    its [rounds] rounds: [a.Teams[i+1], tmp = tmp, a.Teams[i]] reads [tmp]
    and [a.Teams[i]] first and assigns afterwards. *)
Fixpoint shiftLoop (rounds i : nat) (teams : list string) (tmp : string)
  : option (list string) :=
  match rounds with
  | O => Some teams
  | S rounds' =>
      match teams !! i with
      | None => None
      | Some current =>
          match store teams (i + 1) tmp with
          | None => None
          | Some teams' => shiftLoop rounds' (i + 1) teams' current
          end
      end
  end.

Definition Grant (team : auth.Team) (a : App) : option (App * option error) :=
  match Find team a with
  | None => None
  | Some (pos, true) =>
      Some (a, Some (errors_New "This team already has access to this app"))
  | Some (pos, false) =>
      let teams := Teams a ++ [EmptyString] in
      match teams !! pos with
      | None => None
      | Some tmp =>
          match shiftLoop (length teams - 1 - pos) pos teams tmp with
          | None => None
          | Some teams =>
              match store teams pos (auth.Name team) with
              | None => None
              | Some teams => Some (with_Teams teams a, None)
              end
          end
      end
  end.

(** [Revoke]: [index] is in range when the team was found, so neither
    slice expression panics. *)
Definition Revoke (team : auth.Team) (a : App) : option (App * option error) :=
  match Find team a with
  | None => None
  | Some (index, false) =>
      Some (a, Some (errors_New "This team does not have access to this app"))
  | Some (index, true) =>
      let teams := take index (Teams a)
                   ++ copy (drop index (Teams a)) (drop (index + 1) (Teams a)) in
      Some (with_Teams (take (length teams - 1) teams) a, None)
  end.

Definition setEnv (env : bind.EnvVar) (a : App) : App :=
  let a := with_Env (<[bind.Name env := env]> (Env a)) a in
  fst (Log (String.append "setting env "
             (String.append (bind.Name env)
               (String.append " with value " (bind.Value env)))) "tsuru" a).

Definition getEnv (name : string) (a : App) : error + bind.EnvVar :=
  match Env a !! name with
  | Some env => inr env
  | None => inl (errors_New "Environment variable not declared for this app.")
  end.

(** [^[a-z][a-z0-9]{0,62}$]. *)
Definition nameRegexp : regexp.Regexp :=
  regexp.Concat regexp.BeginText
    (regexp.Concat (regexp.CharClass [("a"%char, "z"%char)])
       (regexp.Concat
          (regexp.Repeat
             (regexp.CharClass [("a"%char, "z"%char); ("0"%char, "9"%char)]) 0 62)
          regexp.EndText)).

Definition isValid (a : App) : bool :=
  regexp.MatchString nameRegexp (Name a).

Definition invalidNameMessage : string :=
  String.append "Invalid app name, your app should have at most 63 "
    (String.append "characters, containing only lower case letters or numbers, "
       "starting with a letter.").

Definition CreateApp (a : App) (w : World) : World * option error :=
  if negb (isValid a) then (w, Some (ValidationError invalidNameMessage))
  else execute a [insertApp; createBucketIam; createRepository; provision] w.

(** [a.Unit()]: the first unit, or a zero unit when there is none. *)
Definition Unit_of (a : App) : Unit :=
  match Units a with
  | unit :: _ => unit
  | [] => mkUnit 0 EmptyString EmptyString
  end.

(** [loadHooks]: the three calls that can fail are [repository.GetPath],
    the command that reads [app.conf] on the unit, and the parsing of what
    it printed. *)
Definition loadHooks (a : App) : App * option error :=
  match hooks a with
  | Some _ => (a, None)
  | None =>
      let a := with_hooks (Some (mkConf [] [])) a in
      match GetPath with
      | inl err =>
          let a := fst (Log (String.append "Got error while getting repository path: "
                               (errorText err)) "tsuru" a) in
          (a, Some err)
      | inr uRepo =>
          let cmd := String.append "cat " (path_Join uRepo "app.conf") in
          match Command a (Unit_of a) cmd with
          | (buf, Some err) =>
              let a := fst (Log (String.append "Got error while executing command: "
                                   (String.append (errorText err)
                                      "... Skipping hooks execution")) "tsuru" a) in
              (a, None)
          | (buf, None) =>
              match Unmarshal (FilterOutput buf) (mkConf [] []) with
              | (parsed, Some err) =>
                  let a := with_hooks (Some parsed) a in
                  let a := fst (Log (String.append "Got error while parsing yaml: "
                                       (errorText err)) "tsuru" a) in
                  (a, Some err)
              | (parsed, None) => (with_hooks (Some parsed) a, None)
              end
          end
      end
  end.

(** The loop of [SetEnvsToApp]. *)
Fixpoint setEnvs (envs : list bind.EnvVar) (publicOnly : bool) (app : App) : App :=
  match envs with
  | [] => app
  | env :: rest =>
      let set :=
        if publicOnly then
          match getEnv (bind.Name env) app with
          | inr e => if negb (bind.Public e) then false else true
          | inl _ => true
          end
        else true in
      setEnvs rest publicOnly (if set then setEnv env app else app)
  end.

(** [SetEnvsToApp]; [app.SerializeEnvVars()] writes to the units and leaves
    the aggregate as it is. *)
Definition SetEnvsToApp (envs : list bind.EnvVar) (publicOnly useQueue : bool) (app : App)
  : App * option error :=
  if (0 <? length envs)%nat then
    let app := setEnvs envs publicOnly app in
    match db_Update app with
    | Some err => (app, Some err)
    | None => if useQueue then (app, enqueue (Name app)) else (app, None)
    end
  else (app, None).

Definition SetEnvs (envs : list bind.EnvVar) (publicOnly : bool) (a : App)
  : App * option error :=
  SetEnvsToApp envs publicOnly false a.

End Application.

(** ** More of the application aggregate *)

(** [sort.Strings] of Go's library puts a slice of strings in increasing
    byte order.  Strings that compare equal are equal, so the outcome does
    not depend on the algorithm; the model sorts by insertion. *)
Fixpoint insertSorted (s : string) (sorted : list string) : list string :=
  match sorted with
  | [] => [s]
  | x :: rest => if String.leb s x then s :: sorted else x :: insertSorted s rest
  end.

Fixpoint sort_Strings (l : list string) : list string :=
  match l with
  | [] => []
  | s :: rest => insertSorted s (sort_Strings rest)
  end.

Section ApplicationMore.
Context `{AppPkg}.

(** [SetTeams]: the names of the teams, sorted. *)
Definition SetTeams (teams : list auth.Team) (a : App) : App :=
  with_Teams (sort_Strings (map auth.Name teams)) a.

(** [GetUnits] returns pointers.  The variable [u] of its loop is declared
    once by the [range] clause and used again in every round (the sources
    are built with Go 1.5 and 1.6), and [&u] is the address of that one
    variable: a store maps addresses to units, [u] lives at an address
    that the store does not use yet, each round stores a unit there and
    appends the address to the result. *)
Fixpoint getUnitsLoop (units : list Unit) (u : nat) (store : gmap nat Unit)
    (result : list nat) : list nat * gmap nat Unit :=
  match units with
  | [] => (result, store)
  | unit :: rest => getUnitsLoop rest u (<[u := unit]> store) (result ++ [u])
  end.

Definition GetUnits (a : App) (store : gmap nat Unit) : list nat * gmap nat Unit :=
  getUnitsLoop (Units a) (fresh (dom store)) store [].

(** The loop of [UnsetEnvsFromApp]:
    [if !publicOnly || (err == nil && e.Public) { unset = true }]. *)
Fixpoint unsetEnvs (variableNames : list string) (publicOnly : bool) (app : App) : App :=
  match variableNames with
  | [] => app
  | name :: rest =>
      let unset :=
        match getEnv name app with
        | inr e => negb publicOnly || bind.Public e
        | inl _ => negb publicOnly
        end in
      unsetEnvs rest publicOnly
        (if unset then with_Env (delete name (Env app)) app else app)
  end.

(** [UnsetEnvsFromApp]; it does not read [useQueue]. *)
Definition UnsetEnvsFromApp (variableNames : list string) (publicOnly useQueue : bool)
    (app : App) : App * option error :=
  if (0 <? length variableNames)%nat then
    let app := unsetEnvs variableNames publicOnly app in
    match db_Update app with
    | Some err => (app, Some err)
    | None => (app, None)
    end
  else (app, None).

Definition UnsetEnvs (envs : list string) (publicOnly : bool) (a : App)
  : App * option error :=
  UnsetEnvsFromApp envs publicOnly false a.

End ApplicationMore.

(** ** Restart hooks *)

(** Modelled from the spec: the collaborators of the restart path that are
    not among the sources.  [Writer] is the state of the [io.Writer] that
    receives the output and [Write] its method, giving the number of bytes
    written and an error; [config_GetString] is [config.GetString];
    [os_IsNotExist path] tells whether [os.Stat path] fails with a
    not-exist error; [strings_Fields] is [strings.Fields]; [unitCommand] is
    the method [Command] of a unit, run with the writer as its two output
    streams; [unitExecuteHook] is the method [executeHook] of a unit. *)
Class HookPkg : Type := {
  Writer : Type;
  Write : Writer -> string -> Writer * (nat * option error);
  config_GetString : string -> error + string;
  os_IsNotExist : string -> bool;
  strings_Fields : string -> list string;
  unitCommand : App -> Unit -> Writer -> string -> Writer * option error;
  unitExecuteHook : App -> Unit -> string -> Writer -> Writer * option error
}.

(** [strings.Join]. *)
Fixpoint strings_Join (elems : list string) (sep : string) : string :=
  match elems with
  | [] => EmptyString
  | [e] => e
  | e :: rest => String.append e (String.append sep (strings_Join rest sep))
  end.

Section Hooks.
Context `{AppPkg} `{HookPkg}.

(** [write]; [io.ErrShortWrite] is [errors.New("short write")]. *)
Definition write (w : Writer) (content : string) : Writer * option error :=
  match Write w content with
  | (w', (n, Some err)) => (w', Some err)
  | (w', (n, None)) =>
      if negb (n =? String.length content)%nat then (w', Some (errors_New "short write"))
      else (w', None)
  end.

(** [deployHookAbsPath]; [cmdArgs[0]] panics ([None]) when the command has
    no field. *)
Definition deployHookAbsPath (p : string) : option (string * option error) :=
  match config_GetString "git:unit-repo" with
  | inl _ => Some (EmptyString, None)
  | inr repoPath =>
      match strings_Fields p with
      | [] => None
      | first :: others =>
          let abs := path_Join repoPath first in
          if os_IsNotExist abs then Some (p, None)
          else Some (strings_Join (abs :: others) " ", None)
      end
  end.

(** [Run]. *)
Definition Run (cmd : string) (w : Writer) (a : App) : App * Writer * option error :=
  let a := fst (Log (String.append "running '" (String.append cmd "'")) "tsuru" a) in
  let cmd :=
    String.append
      "[ -f /home/application/apprc ] && source /home/application/apprc; [ -d /home/application/current ] && cd /home/application/current; "
      cmd in
  let '(w, err) := unitCommand a (Unit_of a) w cmd in
  (a, w, err).

(** The loop of [runHook]; the error of [deployHookAbsPath] is held by a
    variable of the loop body, and the function returns the outer [err],
    which is nil once the heading was written. *)
Fixpoint runCommands (cmds : list string) (w : Writer) (a : App)
  : option (App * Writer * option error) :=
  match cmds with
  | [] => Some (a, w, None)
  | cmd :: rest =>
      match deployHookAbsPath cmd with
      | None => None
      | Some (p, Some err) =>
          let a := fst (Log (String.append "Error obtaining absolute path to hook: "
                               (String.append (errorText err) ".")) "tsuru" a) in
          runCommands rest w a
      | Some (p, None) =>
          match Run p w a with
          | (a, w, Some err) => Some (a, w, Some err)
          | (a, w, None) => runCommands rest w a
          end
      end
  end.

Definition runHook (w : Writer) (cmds : list string) (kind : string) (a : App)
  : option (App * Writer * option error) :=
  match cmds with
  | [] =>
      let a := fst (Log (String.append "Skipping " (String.append kind " hooks..."))
                      "tsuru" a) in
      Some (a, w, None)
  | _ :: _ =>
      let a := fst (Log (String.append "Executing " (String.append kind " hook..."))
                      "tsuru" a) in
      match write w (String.append (String "010" " ---> Running ")
                       (String.append kind (String "010" EmptyString))) with
      | (w, Some err) => Some (a, w, Some err)
      | (w, None) => runCommands cmds w a
      end
  end.

Definition hooksOf (a : App) : conf := default (mkConf [] []) (hooks a).

Definition preRestart (w : Writer) (a : App) : option (App * Writer * option error) :=
  match loadHooks a with
  | (a, Some err) => Some (a, w, Some err)
  | (a, None) => runHook w (PreRestart (hooksOf a)) "pre-restart" a
  end.

Definition posRestart (w : Writer) (a : App) : option (App * Writer * option error) :=
  match loadHooks a with
  | (a, Some err) => Some (a, w, Some err)
  | (a, None) => runHook w (PosRestart (hooksOf a)) "pos-restart" a
  end.

(** [Restart]. *)
Definition Restart (a : App) (w : Writer) : option (App * Writer * option error) :=
  let a := fst (Log "executing hook to restart" "tsuru" a) in
  match preRestart w a with
  | None => None
  | Some (a, w, Some err) => Some (a, w, Some err)
  | Some (a, w, None) =>
      match write w (String.append (String "010" " ---> Restarting your app")
                       (String "010" EmptyString)) with
      | (w, Some err) => Some (a, w, Some err)
      | (w, None) =>
          match posRestart w a with
          | None => None
          | Some (a, w, Some err) => Some (a, w, Some err)
          | Some (a, w, None) =>
              let '(w, err) := unitExecuteHook a (Unit_of a) "restart" w in
              Some (a, w, err)
          end
      end
  end.

End Hooks.

(** * Statements of the specification *)

Section Statements.
Context `{RouterPkg}.

(** What the specification says of a removed backend: after a successful
    [RemoveBackend name] no alias points at [name], and [name] has neither
    a health record nor a route set. *)
Definition purges_aliases_health_and_routes (name : string) (g : registry) : Prop :=
  forall g', RemoveBackend name g = (g', None) ->
    (forall cname, cnames (fake g') !! cname <> Some name) /\
    healthcheck (fake g') !! name = None /\
    backends (fake g') !! name = None.

(** What the specification says of a duplicate addition and of the removal
    of an absent address, for the batch made of one address: the address
    added again occurs once, and the removal returns nil and leaves the
    route set as it was. *)
Definition duplicate_add_and_absent_remove_are_silent (name : string) (g : registry) : Prop :=
  forall backendName routes address,
    Retrieve name g = inr backendName ->
    backends (fake g) !! backendName = Some routes ->
    (address ∈ routes ->
       exists g' err routes',
         AddRoutes name [address] g = (g', err) /\
         backends (fake g') !! backendName = Some routes' /\
         count_occ string_dec routes' address = 1) /\
    (address ∉ routes ->
       exists g',
         RemoveRoutes name [address] g = (g', None) /\
         backends (fake g') !! backendName = Some routes).

(** The route list of every backend is duplicate-free: it is a set. *)
Definition routes_NoDup (g : registry) : Prop :=
  forall name routes, backends (fake g) !! name = Some routes -> NoDup routes.

End Statements.

Section HookStatements.
Context `{AppPkg}.

(** What the specification says of a failure while fetching the hook
    source, for an application whose hooks are not loaded yet: whether the
    path of the repository cannot be obtained or the command that reads
    [app.conf] on the unit fails, [loadHooks] returns nil and the
    application is left with no hooks. *)
Definition fetch_failure_is_not_fatal (a : App) : Prop :=
  hooks a = None ->
  let a' := with_hooks (Some (mkConf [] [])) a in
  ((exists err, GetPath = inl err) \/
   (exists uRepo buf err,
      GetPath = inr uRepo /\
      Command a' (Unit_of a') (String.append "cat " (path_Join uRepo "app.conf"))
        = (buf, Some err))) ->
  snd (loadHooks a) = None /\ hooks (fst (loadHooks a)) = Some (mkConf [] []).

End HookStatements.

(** The pattern as the specification words it: the first character is a
    lowercase letter, the remaining ones are lowercase letters or digits,
    and there are at most 63 characters. *)
Definition lowerLetter (c : ascii) : Prop :=
  (N_of_ascii "a" <= N_of_ascii c <= N_of_ascii "z")%N.

Definition digitChar (c : ascii) : Prop :=
  (N_of_ascii "0" <= N_of_ascii c <= N_of_ascii "9")%N.

Definition namingPattern (name : string) : Prop :=
  exists c rest,
    name = String c rest /\
    lowerLetter c /\
    Forall (fun d => lowerLetter d \/ digitChar d) (list_ascii_of_string rest) /\
    String.length name <= 63.

(** ** Sorted team lists *)

(** Sorted ascending with no duplicates, in the byte order of strings. *)
Definition ascending (teams : list string) : Prop :=
  forall i j s t, i < j -> teams !! i = Some s -> teams !! j = Some t ->
    String.ltb s t = true.

(** * Sample collaborators and states

    Concrete collaborators, a registry and applications on which the
    properties below are exercised. *)

Definition hasSuffix (s suffix : string) : bool :=
  let n := String.length s in
  let m := String.length suffix in
  (m <=? n)%nat && String.eqb (String.substring (n - m) m s) suffix.

(** A router package whose health payload is the path to probe and whose
    validity check refuses the aliases under the domain of the router. *)
Definition sampleRouterPkg : RouterPkg := {|
  HealthcheckData := string;
  zeroHealthcheckData := EmptyString;
  ValidCName := fun cname domain => negb (hasSuffix cname domain)
|}.

(** One registered backend, ["myapp"], with a route, an alias and a health
    record; one address flagged as failing; ["blue"] resolves to ["myapp"]
    as after a swap, and ["ghost"] resolves to a backend that is not
    registered. *)
Definition sampleRegistry : @registry sampleRouterPkg :=
  @mkRegistry sampleRouterPkg
    (@mkFakeRouter sampleRouterPkg
       {[ "myapp" := ["http://10.10.10.10:8080"] ]}
       {[ "myapp.example.com" := "myapp" ]}
       {[ "http://10.10.10.11:8080" := true ]}
       {[ "myapp" := "/healthcheck" ]})
    (<["myapp" := "myapp"]> (<["blue" := "myapp"]> {[ "ghost" := "ghost" ]})).

(** Collaborators for which the world is the list of the pipeline steps
    run so far, the unit of the application ["down"] refuses commands, and
    every other unit prints a hook file that does not parse. *)
Definition sampleAppPkg : AppPkg := {|
  World := list action;
  execute := fun _ actions w => (w ++ actions, None);
  db_Update := fun _ => None;
  Command := fun a _ _ =>
    if String.eqb (Name a) "down" then (EmptyString, Some (ErrCollaborator "unit is down"))
    else ("pre-restart: [", None);
  GetPath := inr "/home/application/current";
  path_Join := fun dir file => String.append dir (String.append "/" file);
  Unmarshal := fun text c =>
    if String.eqb text "pre-restart: [" then (c, Some (ErrCollaborator "yaml: did not find expected node"))
    else (c, None);
  FilterOutput := fun text => text;
  enqueue := fun _ => None;
  errorText := fun e =>
    match e with
    | ValidationError text | errors_New text | ErrCollaborator text => text
    | _ => "router error"
    end;
  time_Now := 0%Z
|}.

(** The same collaborators on a server where the path of the repository is
    not configured: [repository.GetPath] fails. *)
Definition sampleAppPkgNoPath : AppPkg := {|
  World := list action;
  execute := @execute sampleAppPkg;
  db_Update := @db_Update sampleAppPkg;
  Command := @Command sampleAppPkg;
  GetPath := inl (ErrCollaborator "key git:unit-repo not found");
  path_Join := @path_Join sampleAppPkg;
  Unmarshal := @Unmarshal sampleAppPkg;
  FilterOutput := @FilterOutput sampleAppPkg;
  enqueue := @enqueue sampleAppPkg;
  errorText := @errorText sampleAppPkg;
  time_Now := @time_Now sampleAppPkg
|}.

(** Collaborators of the restart path for which the writer is the list of
    the texts written, the setting [git:unit-repo] is missing, and the unit
    of the application ["down"] refuses commands. *)
Definition sampleHookPkg : HookPkg := {|
  Writer := list string;
  Write := fun w content => (w ++ [content], (String.length content, None));
  config_GetString := fun _ => inl (ErrCollaborator "key not found");
  os_IsNotExist := fun _ => true;
  strings_Fields := fun p => if String.eqb p EmptyString then [] else [p];
  unitCommand := fun a _ w cmd =>
    if String.eqb (Name a) "down" then (w, Some (ErrCollaborator "unit is down"))
    else (w ++ [cmd], None);
  unitExecuteHook := fun _ _ hook w => (w ++ [hook], None)
|}.

(** Closes a goal [x ∉ l] for a list [l] of literals distinct from [x]. *)
Ltac not_among :=
  let Hin := fresh "Hin" in
  intros Hin;
  repeat (apply elem_of_cons in Hin as [Hin|Hin]; [discriminate Hin|]);
  inversion Hin.

Definition sampleApp (name : string) : App :=
  mkApp ∅ "django" [] name "started"
    [mkUnit 1 "myapp/0" "10.10.10.10"; mkUnit 2 "myapp/1" "10.10.10.11"]
    ["a"; "c"; "d"] None.

(** * Properties of the fake router *)

Section FakeRouterFacts.
Context `{RouterPkg}.

Lemma hasAddress_true (routes : list string) (address : string) :
  hasAddress routes address = true <-> address ∈ routes.
Proof.
  induction routes as [|route rest IH]; simpl.
  - split; [discriminate | intros Hin; inversion Hin].
  - destruct (String.eqb_spec route address) as [->|Hne].
    + split; [intros _; left | reflexivity].
    + rewrite IH. split; [intros Hin; now right |].
      intros Hin. apply elem_of_cons in Hin as [Heq|Hin]; [congruence | assumption].
Qed.

Lemma hasAddress_false (routes : list string) (address : string) :
  hasAddress routes address = false <-> address ∉ routes.
Proof.
  rewrite <- hasAddress_true. destruct (hasAddress routes address); split;
    intros; congruence.
Qed.

Lemma anyFailing_true (r : fakeRouter) (addresses : list string) :
  anyFailing r addresses = true <->
  exists addr, addr ∈ addresses /\ failing r addr = true.
Proof.
  induction addresses as [|addr rest IH]; simpl.
  - split; [discriminate | intros (a & Hin & _); inversion Hin].
  - destruct (failing r addr) eqn:Hf.
    + split; [intros _; exists addr; split; [left | assumption] | reflexivity].
    + rewrite IH. split.
      * intros (a & Hin & Ha). exists a. split; [now right | assumption].
      * intros (a & Hin & Ha). apply elem_of_cons in Hin as [->|Hin];
          [congruence | exists a; now split].
Qed.

Lemma anyFailing_skip (r : fakeRouter) (before after : list string) (a : string) :
  failing r a = false ->
  anyFailing r (before ++ a :: after) = anyFailing r (before ++ after).
Proof.
  intros Ha. induction before as [|b before IH]; simpl; [now rewrite Ha|].
  now rewrite IH.
Qed.

Lemma failing_FailForIp (ip : string) (r : fakeRouter) :
  failing (FailForIp ip r) ip = true.
Proof. unfold failing, FailForIp; simpl. now rewrite lookup_insert_eq. Qed.

Lemma indexFrom_bounds (i : nat) (routes : list string) (address : string) (k : nat) :
  indexFrom i routes address = Some k ->
  i <= k /\ routes !! (k - i) = Some address /\ address ∉ take (k - i) routes.
Proof.
  revert i. induction routes as [|route rest IH]; intros i; simpl; [discriminate|].
  destruct (String.eqb_spec route address) as [->|Hne].
  - intros [= <-]. rewrite Nat.sub_diag. simpl. repeat split; [lia | apply not_elem_of_nil].
  - intros Hk. destruct (IH _ Hk) as (Hle & Hat & Hnot).
    replace (k - i) with (S (k - S i)) by lia. simpl.
    repeat split; [lia | assumption |].
    rewrite not_elem_of_cons. split; [congruence | assumption].
Qed.

Lemma indexFrom_None (i : nat) (routes : list string) (address : string) :
  indexFrom i routes address = None <-> address ∉ routes.
Proof.
  revert i. induction routes as [|route rest IH]; intros i; simpl.
  - split; [intros _; apply not_elem_of_nil | reflexivity].
  - destruct (String.eqb_spec route address) as [->|Hne].
    + split; [discriminate | intros Hn; exfalso; apply Hn; left].
    + rewrite IH, not_elem_of_cons. split; [intros ?; split; congruence | tauto].
Qed.

(** *** The loop of [AddRoutes] *)

Lemma addAll_includes (addresses routes : list string) (a : string) :
  a ∈ routes -> a ∈ addAll routes addresses.
Proof.
  revert routes. induction addresses as [|addr rest IH]; intros routes Hin; simpl;
    [assumption|].
  destruct (hasAddress routes addr); apply IH; [assumption|].
  apply elem_of_app. now left.
Qed.

Lemma addAll_adds (addresses routes : list string) (a : string) :
  a ∈ addresses -> a ∈ addAll routes addresses.
Proof.
  revert routes. induction addresses as [|addr rest IH]; intros routes Hin; simpl.
  - inversion Hin.
  - apply elem_of_cons in Hin as [->|Hin].
    + destruct (hasAddress routes addr) eqn:Hhas; apply addAll_includes.
      * now apply hasAddress_true.
      * apply elem_of_app. right. left.
    + destruct (hasAddress routes addr); now apply IH.
Qed.

Lemma addAll_count (addresses routes : list string) (a : string) :
  a ∈ routes ->
  count_occ string_dec (addAll routes addresses) a = count_occ string_dec routes a.
Proof.
  revert routes. induction addresses as [|addr rest IH]; intros routes Hin; simpl;
    [reflexivity|].
  destruct (hasAddress routes addr) eqn:Hhas; [now apply IH|].
  rewrite IH by (apply elem_of_app; now left).
  rewrite count_occ_app. simpl.
  destruct (string_dec addr a) as [->|Hne]; [|lia].
  apply hasAddress_false in Hhas. contradiction.
Qed.

Lemma addAll_NoDup (addresses routes : list string) :
  NoDup routes -> NoDup (addAll routes addresses).
Proof.
  revert routes. induction addresses as [|addr rest IH]; intros routes Hnd; simpl;
    [assumption|].
  destruct (hasAddress routes addr) eqn:Hhas; apply IH; [assumption|].
  apply NoDup_app. repeat split; [assumption | | apply NoDup_singleton].
  intros x Hx Hx'. apply list_elem_of_singleton in Hx'. subst x.
  apply hasAddress_false in Hhas. contradiction.
Qed.

Lemma addAll_present (addresses routes : list string) :
  (forall a, a ∈ addresses -> a ∈ routes) -> addAll routes addresses = routes.
Proof.
  induction addresses as [|addr rest IH]; intros Hall; simpl; [reflexivity|].
  assert (Hhas : hasAddress routes addr = true)
    by (apply hasAddress_true, Hall; left).
  rewrite Hhas. apply IH. intros a Ha. apply Hall. now right.
Qed.

Lemma addAll_skip (before after routes : list string) (a : string) :
  a ∈ routes ->
  addAll routes (before ++ a :: after) = addAll routes (before ++ after).
Proof.
  revert routes. induction before as [|b before IH]; intros routes Hin; simpl.
  - apply hasAddress_true in Hin. now rewrite Hin.
  - destruct (hasAddress routes b); apply IH; [assumption|].
    apply elem_of_app. now left.
Qed.

(** *** The loop of [RemoveRoutes] *)

Lemma removeAll_absent (addresses routes : list string) :
  (forall a, a ∈ addresses -> a ∉ routes) -> removeAll routes addresses = routes.
Proof.
  induction addresses as [|addr rest IH]; intros Hall; simpl; [reflexivity|].
  assert (Hidx : indexFrom 0 routes addr = None)
    by (apply indexFrom_None, Hall; left).
  rewrite Hidx. apply IH. intros a Ha. apply Hall. now right.
Qed.

Lemma removeAll_skip (before after routes : list string) (a : string) :
  a ∉ routes ->
  removeAll routes (before ++ a :: after) = removeAll routes (before ++ after).
Proof.
  revert routes. induction before as [|b before IH]; intros routes Hnot; simpl.
  - apply indexFrom_None with (i := 0) in Hnot. now rewrite Hnot.
  - destruct (indexFrom 0 routes b) as [i|] eqn:Hidx; [|now apply IH].
    apply IH. intros Hin. apply Hnot.
    apply elem_of_app in Hin as [Hin|Hin].
    + eapply subseteq_take; eassumption.
    + eapply subseteq_drop; eassumption.
Qed.

End FakeRouterFacts.

(** *** Route lists stay duplicate-free *)

Section RouteSets.
Context `{RouterPkg}.

Lemma removeAll_NoDup (addresses routes : list string) :
  NoDup routes -> NoDup (removeAll routes addresses).
Proof.
  revert routes. induction addresses as [|addr rest IH]; intros routes Hnd; simpl;
    [assumption|].
  destruct (indexFrom 0 routes addr) as [i|]; apply IH; [|assumption].
  rewrite <- delete_take_drop. eapply sublist_NoDup; [exact Hnd | apply sublist_delete].
Qed.

Lemma insert_fresh_NoDup (l : list string) (i : nat) (x : string) :
  NoDup l -> x ∉ l -> NoDup (<[i := x]> l).
Proof.
  intros Hnd Hx. destruct (decide (i < length l)) as [Hlt|Hge];
    [|rewrite list_insert_ge by lia; assumption].
  destruct (lookup_lt_is_Some_2 l i Hlt) as [e He].
  rewrite insert_take_drop by assumption.
  rewrite <- (take_drop_middle l i e He) in Hnd.
  apply NoDup_app in Hnd as (Htake & Hdisj & Hrest).
  apply NoDup_cons in Hrest as [_ Hdrop].
  apply NoDup_app. split; [assumption|]. split.
  - intros y Hy Hy'. apply elem_of_cons in Hy' as [->|Hy'].
    + apply Hx. eapply subseteq_take; eassumption.
    + apply (Hdisj y Hy). now right.
  - apply NoDup_cons. split; [|assumption].
    intros Hin. apply Hx. eapply subseteq_drop; eassumption.
Qed.

(** The removal of [RemoveRoute]: the last route takes the place of the
    one removed. *)
Lemma swap_with_last_NoDup (routes : list string) (index : nat) :
  NoDup routes ->
  NoDup (take (length (<[index := default EmptyString (last routes)]> routes) - 1)
           (<[index := default EmptyString (last routes)]> routes)).
Proof.
  intros Hnd. rewrite length_insert.
  destruct (last routes) as [x|] eqn:Hlast.
  - apply last_Some in Hlast as [init ->]. simpl.
    apply NoDup_app in Hnd as (Hinit & Hdisj & _).
    assert (Hx : x ∉ init) by (intros Hin; apply (Hdisj x Hin); left).
    rewrite length_app. simpl. replace (length init + 1 - 1) with (length init) by lia.
    destruct (decide (index < length init)) as [Hlt|Hge].
    + rewrite insert_app_l by assumption.
      rewrite take_app_length' by (now rewrite length_insert).
      now apply insert_fresh_NoDup.
    + destruct (decide (index = length init)) as [->|Hne].
      * rewrite list_insert_id by (rewrite lookup_app_r, Nat.sub_diag by lia; reflexivity).
        now rewrite take_app_length.
      * rewrite list_insert_ge by (rewrite length_app; simpl; lia).
        now rewrite take_app_length.
  - eapply sublist_NoDup; [|apply sublist_take].
    rewrite list_insert_ge; [assumption|].
    destruct routes as [|r routes]; [simpl; lia|].
    apply last_None in Hlast. discriminate.
Qed.

Lemma routes_NoDup_store (g : registry) (name : string) (routes : list string) :
  routes_NoDup g -> NoDup routes ->
  routes_NoDup (with_fake (with_backends (<[name := routes]> (backends (fake g))) (fake g)) g).
Proof.
  intros Hg Hnd other routes'. simpl. rewrite lookup_insert.
  destruct (decide (name = other)) as [->|Hne]; [now intros [= <-] | apply Hg].
Qed.

Lemma routes_NoDup_routesOf (g : registry) (name : string) :
  routes_NoDup g -> NoDup (routesOf (fake g) name).
Proof.
  intros Hg. unfold routesOf. destruct (backends (fake g) !! name) as [routes|] eqn:Hb;
    simpl; [now apply (Hg name) | constructor].
Qed.

Lemma routes_NoDup_new (records : gmap string string) :
  routes_NoDup (mkRegistry newFakeRouter records).
Proof. intros name routes. simpl. now rewrite lookup_empty. Qed.

Lemma routes_NoDup_AddBackend (name : string) (g : registry) :
  routes_NoDup g -> routes_NoDup (fst (AddBackend name g)).
Proof.
  intros Hg. unfold AddBackend. destruct (HasBackend name (fake g)); [assumption|].
  intros other routes. simpl. rewrite lookup_insert.
  destruct (decide (name = other)) as [->|Hne]; [intros [= <-]; constructor | apply Hg].
Qed.

Lemma routes_NoDup_RemoveBackend (name : string) (g : registry) :
  routes_NoDup g -> routes_NoDup (fst (RemoveBackend name g)).
Proof.
  intros Hg. unfold RemoveBackend. destruct (Retrieve name g) as [err|backendName];
    [assumption|].
  destruct (negb (String.eqb backendName name)); [assumption|].
  destruct (negb (HasBackend backendName (fake g))); [assumption|].
  intros other routes. simpl. intros Hb. apply lookup_delete_Some in Hb as [_ Hb].
  now apply (Hg other).
Qed.

Lemma routes_NoDup_AddRoutes (name : string) (addresses : list string) (g : registry) :
  routes_NoDup g -> routes_NoDup (fst (AddRoutes name addresses g)).
Proof.
  intros Hg. unfold AddRoutes. destruct (Retrieve name g) as [err|backendName];
    [assumption|].
  destruct (negb (HasBackend backendName (fake g))); [assumption|].
  destruct (anyFailing (fake g) addresses); [assumption|].
  apply routes_NoDup_store; [assumption|].
  now apply addAll_NoDup, routes_NoDup_routesOf.
Qed.

Lemma routes_NoDup_RemoveRoutes (name : string) (addresses : list string) (g : registry) :
  routes_NoDup g -> routes_NoDup (fst (RemoveRoutes name addresses g)).
Proof.
  intros Hg. unfold RemoveRoutes. destruct (Retrieve name g) as [err|backendName];
    [assumption|].
  destruct (negb (HasBackend backendName (fake g))); [assumption|].
  destruct (anyFailing (fake g) addresses); [assumption|].
  apply routes_NoDup_store; [assumption|].
  now apply removeAll_NoDup, routes_NoDup_routesOf.
Qed.

Lemma routes_NoDup_AddRoute (name address : string) (g : registry) :
  routes_NoDup g -> routes_NoDup (fst (AddRoute name address g)).
Proof.
  intros Hg. unfold AddRoute. destruct (Retrieve name g) as [err|backendName];
    [assumption|].
  destruct (HasBackend backendName (fake g)) eqn:Hhas; [|assumption]. cbn [negb].
  destruct (HasRoute backendName address (fake g)) eqn:Hroute; [assumption|].
  destruct (failing (fake g) address); [assumption|].
  apply routes_NoDup_store; [assumption|].
  unfold HasBackend in Hhas. unfold HasRoute in Hroute. unfold routesOf.
  destruct (backends (fake g) !! backendName) as [routes|] eqn:Hb; [|discriminate].
  simpl. apply NoDup_app. split; [now apply (Hg backendName)|].
  split; [|apply NoDup_singleton].
  intros x Hx Hx'. apply list_elem_of_singleton in Hx'. subst x.
  apply hasAddress_false in Hroute. contradiction.
Qed.

Lemma routes_NoDup_RemoveRoute (name address : string) (g : registry) :
  routes_NoDup g -> routes_NoDup (fst (RemoveRoute name address g)).
Proof.
  intros Hg. unfold RemoveRoute. destruct (Retrieve name g) as [err|backendName];
    [assumption|].
  destruct (negb (HasBackend backendName (fake g))); [assumption|].
  destruct (failing (fake g) address); [assumption|].
  destruct (indexFrom 0 (routesOf (fake g) backendName) address) as [index|];
    [|assumption].
  apply routes_NoDup_store; [assumption|].
  now apply swap_with_last_NoDup, routes_NoDup_routesOf.
Qed.

Lemma routes_NoDup_SetCName (cname name : string) (g : registry) :
  routes_NoDup g -> routes_NoDup (fst (SetCName cname name g)).
Proof.
  intros Hg. unfold SetCName. destruct (Retrieve name g) as [err|backendName];
    [assumption|].
  destruct (negb (HasBackend backendName (fake g))); [assumption|].
  destruct (negb (ValidCName cname "fakerouter.com")); [assumption|].
  destruct (cnames (fake g) !! cname); assumption.
Qed.

Lemma routes_NoDup_UnsetCName (cname name : string) (g : registry) :
  routes_NoDup g -> routes_NoDup (fst (UnsetCName cname name g)).
Proof.
  intros Hg. unfold UnsetCName. destruct (Retrieve name g) as [err|backendName];
    [assumption|].
  destruct (negb (HasBackend backendName (fake g))); [assumption|].
  destruct (cnames (fake g) !! cname); assumption.
Qed.

Lemma routes_NoDup_SetHealthcheck (name : string) (data : HealthcheckData) (g : registry) :
  routes_NoDup g -> routes_NoDup (fst (SetHealthcheck name data g)).
Proof.
  intros Hg. unfold SetHealthcheck. destruct (Retrieve name g) as [err|backendName];
    assumption.
Qed.

End RouteSets.

Section FakeRouterClaims.
Context `{RouterPkg}.

(** C2. For a name that resolves to a registered backend, a batch holding
    an address flagged as failing makes [AddRoutes], and likewise
    [RemoveRoutes], return [ErrForcedFailure] and leave the whole registry,
    hence the route set of the backend, as it was. *)
Theorem batch_rejected_on_forced_failure
    (name backendName addr : string) (addresses : list string) (g : registry) :
  Retrieve name g = inr backendName ->
  HasBackend backendName (fake g) = true ->
  addr ∈ addresses ->
  failing (fake g) addr = true ->
  AddRoutes name addresses g = (g, Some ErrForcedFailure) /\
  RemoveRoutes name addresses g = (g, Some ErrForcedFailure).
Proof.
  intros Hret Hhas Hin Hfail.
  assert (Hany : anyFailing (fake g) addresses = true)
    by (apply anyFailing_true; eauto).
  unfold AddRoutes, RemoveRoutes. rewrite Hret, Hhas, Hany. simpl. now split.
Qed.

(** C3. [RemoveBackend name] returns [ErrBackendSwapped] whenever the
    name-resolution record resolves [name] to another backend, and
    [ErrBackendNotFound] when the backend it resolves to, [name] itself, is
    not registered; the registry is unchanged in both cases. *)
Theorem RemoveBackend_swapped_or_not_found
    (name backendName : string) (g : registry) :
  Retrieve name g = inr backendName ->
  (backendName <> name -> RemoveBackend name g = (g, Some ErrBackendSwapped)) /\
  (backendName = name -> HasBackend backendName (fake g) = false ->
   RemoveBackend name g = (g, Some ErrBackendNotFound)).
Proof.
  intros Hret. unfold RemoveBackend. rewrite Hret. split.
  - intros Hne. apply String.eqb_neq in Hne. now rewrite Hne.
  - intros -> Hhas. now rewrite String.eqb_refl, Hhas.
Qed.

Lemma RemoveBackend_success (name : string) (g g' : registry) :
  RemoveBackend name g = (g', None) ->
  Retrieve name g = inr name /\ HasBackend name (fake g) = true /\
  g' = mkRegistry
         (mkFakeRouter (delete name (backends (fake g)))
            (purgeCNames name (cnames (fake g)))
            (failuresByIp (fake g)) (healthcheck (fake g)))
         (delete name (resolution g)).
Proof.
  unfold RemoveBackend. destruct (Retrieve name g) as [err|backendName]; [discriminate|].
  destruct (String.eqb_spec backendName name) as [->|Hne]; simpl; [|discriminate].
  destruct (HasBackend name (fake g)); simpl; [|discriminate].
  unfold Remove. simpl. intros [= <-]. repeat split; reflexivity.
Qed.

(** C4, as amended. A successful [RemoveBackend name] removes every alias
    that points at [name] and the route set of [name], keeps every other
    alias and every other backend, and leaves the health records,
    including the one stored for [name], as they were. *)
Theorem RemoveBackend_purges_aliases_and_routes (name : string) (g g' : registry) :
  RemoveBackend name g = (g', None) ->
  (forall cname, cnames (fake g') !! cname <> Some name) /\
  (forall cname backend, backend <> name ->
     cnames (fake g) !! cname = Some backend ->
     cnames (fake g') !! cname = Some backend) /\
  backends (fake g') !! name = None /\
  (forall other, other <> name ->
     backends (fake g') !! other = backends (fake g) !! other) /\
  healthcheck (fake g') = healthcheck (fake g).
Proof.
  intros Hrm. apply RemoveBackend_success in Hrm as (_ & _ & ->). simpl.
  unfold purgeCNames. repeat split.
  - intros cname Hc. apply map_lookup_filter_Some in Hc as [_ Hne]. now apply Hne.
  - intros cname backend Hne Hc. apply map_lookup_filter_Some. split; [assumption|].
    simpl. assumption.
  - apply lookup_delete_eq.
  - intros other Hne. apply lookup_delete_ne. congruence.
Qed.

(** C7, as amended. For a name that resolves to a registered backend:
    [AddRoutes] adds no occurrence of an address the route set already
    holds, so that an address present once is present once afterwards; it
    keeps a duplicate-free route set duplicate-free, and when no address of
    the batch is flagged as failing it returns nil with exactly one
    occurrence of every address of the batch; an address already present
    and not flagged can be dropped from the batch without changing the
    outcome.  [RemoveRoutes] with a batch of absent addresses leaves the
    registry as it was and returns nil, unless an address of the batch is
    flagged as failing, in which case it returns [ErrForcedFailure]; an
    absent address that is not flagged can be dropped from the batch
    without changing the outcome. *)
Theorem duplicate_add_and_absent_remove
    (name backendName : string) (routes addresses : list string) (g : registry) :
  Retrieve name g = inr backendName ->
  backends (fake g) !! backendName = Some routes ->
  (exists g' err routes',
     AddRoutes name addresses g = (g', err) /\
     backends (fake g') !! backendName = Some routes' /\
     (forall a, a ∈ routes ->
        count_occ string_dec routes' a = count_occ string_dec routes a) /\
     (NoDup routes ->
        NoDup routes' /\ forall a, a ∈ routes -> count_occ string_dec routes' a = 1) /\
     (anyFailing (fake g) addresses = false ->
        err = None /\
        (NoDup routes -> forall a, a ∈ addresses -> count_occ string_dec routes' a = 1)) /\
     ((forall a, a ∈ addresses -> a ∈ routes) -> g' = g)) /\
  (forall before a after, addresses = before ++ a :: after ->
     a ∈ routes -> failing (fake g) a = false ->
     AddRoutes name (before ++ after) g = AddRoutes name addresses g) /\
  ((forall a, a ∈ addresses -> a ∉ routes) ->
     RemoveRoutes name addresses g =
       (g, if anyFailing (fake g) addresses then Some ErrForcedFailure else None)) /\
  (forall before a after, addresses = before ++ a :: after ->
     a ∉ routes -> failing (fake g) a = false ->
     RemoveRoutes name (before ++ after) g = RemoveRoutes name addresses g).
Proof.
  intros Hret Hb.
  assert (Hhas : HasBackend backendName (fake g) = true)
    by (unfold HasBackend; now rewrite Hb).
  assert (Hroutes : routesOf (fake g) backendName = routes)
    by (unfold routesOf; now rewrite Hb).
  assert (Hid : with_fake (with_backends (<[backendName := routes]> (backends (fake g)))
                             (fake g)) g = g).
  { destruct g as [[b c f h] res]. unfold with_fake, with_backends. simpl in *.
    now rewrite insert_id. }
  assert (Honce : forall l a, NoDup l -> a ∈ l -> count_occ string_dec l a = 1).
  { intros l a Hnd Hin. apply NoDup_count_occ'; [now apply NoDup_ListNoDup|].
    now apply list_elem_of_In. }
  split; [|split; [|split]].
  - unfold AddRoutes. rewrite Hret, Hhas. cbn [negb].
    destruct (anyFailing (fake g) addresses) eqn:Hany.
    + exists g, (Some ErrForcedFailure), routes. split; [reflexivity|].
      split; [assumption|]. split; [reflexivity|]. split; [|split].
      * intros Hnd. split; [assumption | intros a Ha; now apply Honce].
      * discriminate.
      * reflexivity.
    + eexists _, None, (addAll routes addresses). rewrite Hroutes.
      split; [reflexivity|]. split; [simpl; apply lookup_insert_eq|].
      split; [intros a Ha; now apply addAll_count|]. split; [|split].
      * intros Hnd. split; [now apply addAll_NoDup|].
        intros a Ha. rewrite addAll_count by assumption. now apply Honce.
      * intros _. split; [reflexivity|]. intros Hnd a Ha.
        apply Honce; [now apply addAll_NoDup | now apply addAll_adds].
      * intros Hall. now rewrite (addAll_present _ _ Hall).
  - intros before a after -> Hin Hok. unfold AddRoutes. rewrite Hret, Hhas. cbn [negb].
    rewrite (anyFailing_skip _ _ _ _ Hok), Hroutes. now rewrite addAll_skip.
  - intros Hall. unfold RemoveRoutes. rewrite Hret, Hhas. cbn [negb].
    destruct (anyFailing (fake g) addresses); [reflexivity|].
    rewrite Hroutes, (removeAll_absent _ _ Hall). now rewrite Hid.
  - intros before a after -> Hnot Hok. unfold RemoveRoutes. rewrite Hret, Hhas. cbn [negb].
    rewrite (anyFailing_skip _ _ _ _ Hok), Hroutes. now rewrite removeAll_skip.
Qed.

(** C9. [SetCName alias name] returns nil and leaves the registry as it was
    whenever the backend that [name] resolves to is not registered,
    whatever the alias; and when it returns [ErrCNameNotAllowed] or
    [ErrCNameExists], [name] resolves to a registered backend. *)
Theorem SetCName_checks_backend_first (cname name : string) (g : registry) :
  (forall backendName, Retrieve name g = inr backendName ->
     HasBackend backendName (fake g) = false ->
     SetCName cname name g = (g, None)) /\
  (forall g' err, SetCName cname name g = (g', Some err) ->
     err = ErrCNameNotAllowed \/ err = ErrCNameExists ->
     exists backendName,
       Retrieve name g = inr backendName /\ HasBackend backendName (fake g) = true).
Proof.
  split.
  - intros backendName Hret Hhas. unfold SetCName. now rewrite Hret, Hhas.
  - intros g' err. unfold SetCName, Retrieve.
    destruct (resolution g !! name) as [backendName|] eqn:Hres.
    + destruct (HasBackend backendName (fake g)) eqn:Hhas; simpl; [|discriminate].
      intros _ _. now exists backendName.
    + intros [= <- <-] [Habs|Habs]; discriminate.
Qed.

End FakeRouterClaims.

(** * Properties of the application aggregate *)

Section ApplicationFacts.
Context `{AppPkg}.

(** *** Units *)

Lemma replaceUnit_None (units : list Unit) (u : Unit) :
  replaceUnit units u = None <->
  forall unt, unt ∈ units -> Machine unt <> Machine u.
Proof.
  induction units as [|unt rest IH]; simpl.
  - split; [intros _ x Hx; inversion Hx | reflexivity].
  - destruct (Z.eqb_spec (Machine unt) (Machine u)) as [Heq|Hne].
    + split; [discriminate | intros Hall; exfalso; apply (Hall unt); [left | assumption]].
    + destruct (replaceUnit rest u) as [units'|]; simpl.
      * split; [discriminate|]. intros Hall.
        assert (Habs : Some units' = None); [|discriminate].
        apply IH. intros x Hx. apply Hall. now right.
      * split; [|reflexivity]. intros _ x Hx.
        apply elem_of_cons in Hx as [->|Hx]; [assumption|].
        destruct IH as [IH _]. now apply IH.
Qed.

Lemma replaceUnit_Some (units units' : list Unit) (u : Unit) :
  replaceUnit units u = Some units' ->
  exists i unt,
    units !! i = Some unt /\ Machine unt = Machine u /\
    (forall j unt', j < i -> units !! j = Some unt' -> Machine unt' <> Machine u) /\
    units' = <[i := u]> units.
Proof.
  revert units'. induction units as [|unt rest IH]; intros units'; simpl; [discriminate|].
  destruct (Z.eqb_spec (Machine unt) (Machine u)) as [Heq|Hne].
  - intros [= <-]. exists 0, unt. repeat split; [assumption | intros j ? Hj; lia].
  - destruct (replaceUnit rest u) as [rest'|]; simpl; [|discriminate].
    intros [= <-]. destruct (IH rest' eq_refl) as (i & x & Hi & Hx & Hfirst & ->).
    exists (S i), x. repeat split; [assumption | assumption |].
    intros [|j] unt' Hj; simpl; [intros [= <-]; assumption|].
    apply Hfirst. lia.
Qed.

Lemma replaceUnit_first (units : list Unit) (u unt : Unit) (i : nat) :
  units !! i = Some unt -> Machine unt = Machine u ->
  (forall j unt', j < i -> units !! j = Some unt' -> Machine unt' <> Machine u) ->
  replaceUnit units u = Some (<[i := u]> units).
Proof.
  revert i. induction units as [|x rest IH]; intros i; [intros Hi; inversion Hi|].
  destruct i as [|i]; simpl.
  - intros [= ->] Heq _. apply Z.eqb_eq in Heq. now rewrite Heq.
  - intros Hi Heq Hfirst.
    assert (Hx : Machine x <> Machine u) by (apply (Hfirst 0); [lia | reflexivity]).
    apply Z.eqb_neq in Hx. rewrite Hx.
    rewrite (IH i Hi Heq); [reflexivity|].
    intros j unt' Hj Hat. apply (Hfirst (S j)); [lia | assumption].
Qed.

(** C10. [AddUnit u] overwrites in place the first unit on the machine of
    [u], keeping the length of the unit list, and appends [u] when no unit
    is on that machine; units on pairwise distinct machines stay on
    pairwise distinct machines. *)
Theorem AddUnit_replaces_or_appends (u : Unit) (a : App) :
  (forall i unt, Units a !! i = Some unt -> Machine unt = Machine u ->
     (forall j unt', j < i -> Units a !! j = Some unt' -> Machine unt' <> Machine u) ->
     Units (AddUnit u a) = <[i := u]> (Units a) /\
     length (Units (AddUnit u a)) = length (Units a)) /\
  ((forall unt, unt ∈ Units a -> Machine unt <> Machine u) ->
     Units (AddUnit u a) = Units a ++ [u]) /\
  (NoDup (Machine <$> Units a) -> NoDup (Machine <$> Units (AddUnit u a))).
Proof.
  unfold AddUnit. split; [|split].
  - intros i unt Hi Heq Hfirst.
    rewrite (replaceUnit_first _ _ _ _ Hi Heq Hfirst). simpl.
    split; [reflexivity | apply length_insert].
  - intros Hall. apply replaceUnit_None in Hall. now rewrite Hall.
  - intros Hnd. destruct (replaceUnit (Units a) u) as [units'|] eqn:Hr; simpl.
    + apply replaceUnit_Some in Hr as (i & unt & Hi & Heq & _ & ->).
      rewrite list_fmap_insert, <- Heq.
      rewrite list_insert_id; [assumption|].
      rewrite list_lookup_fmap, Hi. reflexivity.
    + rewrite fmap_app. simpl. apply NoDup_app. repeat split;
        [assumption | | apply NoDup_singleton].
      intros m Hm Hm'. apply list_elem_of_singleton in Hm'. subst m.
      apply list_elem_of_fmap in Hm as (unt & Heq & Hin).
      destruct (replaceUnit_None (Units a) u) as [Hnone _].
      apply (Hnone Hr unt Hin). congruence.
Qed.

(** *** Environment variables *)

Lemma Env_Log (message source : string) (a : App) :
  Env (fst (Log message source a)) = Env a.
Proof. reflexivity. Qed.

Lemma Env_setEnv (env : bind.EnvVar) (a : App) :
  Env (setEnv env a) = <[bind.Name env := env]> (Env a).
Proof. reflexivity. Qed.

Lemma fst_SetEnvsToApp (envs : list bind.EnvVar) (publicOnly useQueue : bool) (app : App) :
  fst (SetEnvsToApp envs publicOnly useQueue app) = setEnvs envs publicOnly app.
Proof.
  unfold SetEnvsToApp. destruct envs as [|env rest]; [reflexivity|].
  cbn [length Nat.ltb Nat.leb].
  destruct (db_Update _); [reflexivity|]. now destruct useQueue.
Qed.

Lemma Env_SetEnvsToApp (envs : list bind.EnvVar) (publicOnly useQueue : bool) (app : App) :
  Env (fst (SetEnvsToApp envs publicOnly useQueue app)) = Env (setEnvs envs publicOnly app).
Proof. now rewrite fst_SetEnvsToApp. Qed.

(** The turn of one variable. *)
Lemma setEnvs_one (v : bind.EnvVar) (publicOnly : bool) (app : App) :
  Env (setEnvs [v] publicOnly app) =
    match Env app !! bind.Name v with
    | Some e =>
        if publicOnly && negb (bind.Public e) then Env app
        else <[bind.Name v := v]> (Env app)
    | None => <[bind.Name v := v]> (Env app)
    end.
Proof.
  simpl. unfold getEnv. destruct publicOnly; simpl.
  - destruct (Env app !! bind.Name v) as [e|]; [|reflexivity].
    now destruct (bind.Public e).
  - now destruct (Env app !! bind.Name v).
Qed.

(** A name that no variable of the batch bears keeps its binding. *)
Lemma setEnvs_other (envs : list bind.EnvVar) (publicOnly : bool) (app : App) (n : string) :
  (forall u, u ∈ envs -> bind.Name u <> n) ->
  Env (setEnvs envs publicOnly app) !! n = Env app !! n.
Proof.
  revert app. induction envs as [|env rest IH]; intros app Hall; simpl; [reflexivity|].
  rewrite IH by (intros u Hu; apply Hall; now right).
  assert (Hne : bind.Name env <> n) by (apply Hall; left).
  match goal with |- context [if ?b then _ else _] => destruct b end;
    [|reflexivity].
  rewrite Env_setEnv. now apply lookup_insert_ne.
Qed.

(** With [publicOnly], a variable stored as non-public is never written. *)
Lemma setEnvs_protected (envs : list bind.EnvVar) (app : App) (n : string) (e : bind.EnvVar) :
  Env app !! n = Some e -> bind.Public e = false ->
  Env (setEnvs envs true app) !! n = Some e.
Proof.
  revert app. induction envs as [|env rest IH]; intros app He Hp; simpl; [assumption|].
  apply IH; [|assumption]. unfold getEnv.
  destruct (Env app !! bind.Name env) as [e'|] eqn:He'.
  - destruct (bind.Public e') eqn:Hp'; cbn [negb]; [|assumption].
    rewrite Env_setEnv, lookup_insert_ne; [assumption|]. congruence.
  - rewrite Env_setEnv, lookup_insert_ne; [assumption|]. congruence.
Qed.

(** After a batch, a name is bound as before or to a variable of the batch. *)
Lemma setEnvs_origin (envs : list bind.EnvVar) (publicOnly : bool) (app : App) (n : string) :
  Env (setEnvs envs publicOnly app) !! n = Env app !! n \/
  exists u, u ∈ envs /\ bind.Name u = n /\ Env (setEnvs envs publicOnly app) !! n = Some u.
Proof.
  revert app. induction envs as [|env rest IH]; intros app; simpl; [now left|].
  match goal with |- context [setEnvs rest publicOnly ?x] => set (app' := x) end.
  destruct (IH app') as [Hsame|(u & Hu & Hn & Hat)].
  - rewrite Hsame. subst app'.
    match goal with |- context [if ?b then _ else _] => destruct b end; [|now left].
    rewrite Env_setEnv. destruct (decide (bind.Name env = n)) as [Heq|Hne].
    + right. exists env. split; [left|]. split; [assumption|].
      subst n. apply lookup_insert_eq.
    + left. now apply lookup_insert_ne.
  - right. exists u. split; [now right|]. now split.
Qed.

Lemma setEnvs_app (before after : list bind.EnvVar) (publicOnly : bool) (app : App) :
  setEnvs (before ++ after) publicOnly app =
  setEnvs after publicOnly (setEnvs before publicOnly app).
Proof.
  revert app. induction before as [|env rest IH]; intros app; simpl; [reflexivity|].
  apply IH.
Qed.

(** The last variable of the batch that bears its name is the one stored,
    unless [publicOnly] is set and the name was bound to a non-public
    variable when its turn came. *)
Lemma setEnvs_last (before after : list bind.EnvVar) (v : bind.EnvVar)
    (publicOnly : bool) (app : App) :
  (forall u, u ∈ after -> bind.Name u <> bind.Name v) ->
  (publicOnly = true ->
     (forall e, Env app !! bind.Name v = Some e -> bind.Public e = true) /\
     (forall u, u ∈ before -> bind.Name u = bind.Name v -> bind.Public u = true)) ->
  Env (setEnvs (before ++ v :: after) publicOnly app) !! bind.Name v = Some v.
Proof.
  intros Hafter Hpub. rewrite setEnvs_app. simpl.
  rewrite setEnvs_other by assumption.
  set (mid := setEnvs before publicOnly app).
  assert (Hset : (if publicOnly
                  then match getEnv (bind.Name v) mid with
                       | inr e => if negb (bind.Public e) then false else true
                       | inl _ => true
                       end
                  else true) = true).
  { destruct publicOnly; [|reflexivity].
    destruct (Hpub eq_refl) as [Hstored Hbefore]. unfold getEnv.
    destruct (Env mid !! bind.Name v) as [e|] eqn:He; [|reflexivity].
    assert (Hp : bind.Public e = true); [|now rewrite Hp].
    subst mid.
    destruct (setEnvs_origin before true app (bind.Name v)) as [Hsame|(u & Hu & Hn & Hat)].
    - apply Hstored. congruence.
    - assert (u = e) by congruence. subst u. now apply Hbefore. }
  rewrite Hset, Env_setEnv. apply lookup_insert_eq.
Qed.

End ApplicationFacts.

Section ApplicationClaims.
Context `{AppPkg}.

(** C6. [SetEnvsToApp] takes the variables of the batch in turn; the turn
    of a variable leaves the environment as it is when [publicOnly] is set
    and the environment holds a non-public variable of that name, and
    stores the variable under its name otherwise.  Hence, with
    [publicOnly], every variable that the environment holds as non-public
    is left as it is, and every other variable of the batch is stored: the
    last variable bearing a name is the one bound to it afterwards,
    provided no earlier variable of the batch made that name non-public.
    Without [publicOnly] the last variable bearing a name is always the one
    bound to it.  A name outside the batch keeps its binding.  In
    particular, once [X] is set to ["1"] as non-public, a batch setting [X]
    to ["2"] as public leaves [X] at ["1"] with [publicOnly] and binds it
    to ["2"] without. *)
Theorem SetEnvsToApp_public_only (envs : list bind.EnvVar) (useQueue : bool) (app : App) :
  (forall before after publicOnly, envs = before ++ after ->
     Env (fst (SetEnvsToApp envs publicOnly useQueue app)) =
     Env (fst (SetEnvsToApp after publicOnly useQueue
                 (fst (SetEnvsToApp before publicOnly useQueue app))))) /\
  (forall v publicOnly, envs = [v] ->
     Env (fst (SetEnvsToApp envs publicOnly useQueue app)) =
       match Env app !! bind.Name v with
       | Some e =>
           if publicOnly && negb (bind.Public e) then Env app
           else <[bind.Name v := v]> (Env app)
       | None => <[bind.Name v := v]> (Env app)
       end) /\
  (forall n e, Env app !! n = Some e -> bind.Public e = false ->
     Env (fst (SetEnvsToApp envs true useQueue app)) !! n = Some e) /\
  (forall before v after, envs = before ++ v :: after ->
     (forall u, u ∈ after -> bind.Name u <> bind.Name v) ->
     (forall e, Env app !! bind.Name v = Some e -> bind.Public e = true) ->
     (forall u, u ∈ before -> bind.Name u = bind.Name v -> bind.Public u = true) ->
     Env (fst (SetEnvsToApp envs true useQueue app)) !! bind.Name v = Some v) /\
  (forall before v after, envs = before ++ v :: after ->
     (forall u, u ∈ after -> bind.Name u <> bind.Name v) ->
     Env (fst (SetEnvsToApp envs false useQueue app)) !! bind.Name v = Some v) /\
  (forall publicOnly n, (forall u, u ∈ envs -> bind.Name u <> n) ->
     Env (fst (SetEnvsToApp envs publicOnly useQueue app)) !! n = Env app !! n) /\
  (let x1 := bind.mkEnvVar "X" "1" false EmptyString in
   let x2 := bind.mkEnvVar "X" "2" true EmptyString in
   let app1 := fst (SetEnvsToApp [x1] false useQueue app) in
   Env (fst (SetEnvsToApp [x2] true useQueue app1)) !! "X" = Some x1 /\
   Env (fst (SetEnvsToApp [x2] false useQueue app1)) !! "X" = Some x2).
Proof.
  repeat split.
  - intros before after publicOnly ->.
    now rewrite !fst_SetEnvsToApp, setEnvs_app.
  - intros v publicOnly ->. rewrite Env_SetEnvsToApp. apply setEnvs_one.
  - intros n e He Hp. rewrite Env_SetEnvsToApp. now apply setEnvs_protected.
  - intros before v after -> Hafter Hstored Hbefore. rewrite Env_SetEnvsToApp.
    apply setEnvs_last; [assumption|]. intros _. now split.
  - intros before v after -> Hafter. rewrite Env_SetEnvsToApp.
    apply setEnvs_last; [assumption | discriminate].
  - intros publicOnly n Hall. rewrite Env_SetEnvsToApp. now apply setEnvs_other.
  - rewrite Env_SetEnvsToApp. apply setEnvs_protected; [|reflexivity].
    rewrite Env_SetEnvsToApp. simpl. apply lookup_insert_eq.
  - rewrite Env_SetEnvsToApp. simpl. apply lookup_insert_eq.
Qed.

(** C8. For an application whose hooks are not loaded yet, [loadHooks]
    returns the error of [repository.GetPath] when the path of the
    repository cannot be obtained; with the path at hand it returns nil
    when the command that reads the hook file on the unit fails; in both
    cases the application is left with an empty hook configuration.  When
    the command succeeds and parsing what it printed fails, [loadHooks]
    returns the error of the parser. *)
Theorem loadHooks_fetch_failure_and_parse_error (a : App) :
  hooks a = None ->
  let a' := with_hooks (Some (mkConf [] [])) a in
  (forall err, GetPath = inl err ->
     snd (loadHooks a) = Some err /\
     hooks (fst (loadHooks a)) = Some (mkConf [] [])) /\
  (forall uRepo buf err, GetPath = inr uRepo ->
     Command a' (Unit_of a') (String.append "cat " (path_Join uRepo "app.conf"))
       = (buf, Some err) ->
     snd (loadHooks a) = None /\
     hooks (fst (loadHooks a)) = Some (mkConf [] [])) /\
  (forall uRepo buf parsed err, GetPath = inr uRepo ->
     Command a' (Unit_of a') (String.append "cat " (path_Join uRepo "app.conf"))
       = (buf, None) ->
     Unmarshal (FilterOutput buf) (mkConf [] []) = (parsed, Some err) ->
     snd (loadHooks a) = Some err).
Proof.
  intros Hnil a'. subst a'. unfold loadHooks. rewrite Hnil. split; [|split].
  - intros err Hpath. rewrite Hpath. simpl. now split.
  - intros uRepo buf err Hpath Hcmd. rewrite Hpath, Hcmd. simpl. now split.
  - intros uRepo buf parsed err Hpath Hcmd Hparse. rewrite Hpath, Hcmd, Hparse.
    reflexivity.
Qed.

(** A failure of [repository.GetPath] is returned to the caller. *)
Lemma loadHooks_path_error (a : App) (err : error) :
  hooks a = None -> GetPath = inl err -> snd (loadHooks a) = Some err.
Proof. intros Hnil Hpath. unfold loadHooks. now rewrite Hnil, Hpath. Qed.

(** Hooks that were loaded, or that failed to load, are not loaded again. *)
Lemma loadHooks_cached (a : App) (c : conf) :
  hooks a = Some c -> loadHooks a = (a, None).
Proof. intros Hc. unfold loadHooks. now rewrite Hc. Qed.

End ApplicationClaims.

(** ** The naming pattern *)

Section RegexpFacts.
Import regexp.

Lemma Ascii_leb_le (a b : ascii) :
  Ascii.leb a b = true <-> (N_of_ascii a <= N_of_ascii b)%N.
Proof.
  unfold Ascii.leb, Ascii.compare, N.le.
  destruct (N_of_ascii a ?= N_of_ascii b)%N; split; congruence.
Qed.

Lemma inClass_letter (c : ascii) :
  inClass [("a"%char, "z"%char)] c = true <-> lowerLetter c.
Proof.
  unfold inClass, inRange, lowerLetter. cbn [existsb fst snd].
  rewrite orb_false_r, andb_true_iff, !Ascii_leb_le. reflexivity.
Qed.

Lemma inClass_letter_digit (c : ascii) :
  inClass [("a"%char, "z"%char); ("0"%char, "9"%char)] c = true <->
  lowerLetter c \/ digitChar c.
Proof.
  unfold inClass, inRange, lowerLetter, digitChar. cbn [existsb fst snd].
  rewrite orb_false_r, orb_true_iff, !andb_true_iff, !Ascii_leb_le. reflexivity.
Qed.

(** A bounded repetition of a class reaches the end of the text exactly
    when the text is short enough and made of characters of the class. *)
Lemma repeat_class_reaches_end (ranges : list (ascii * ascii)) (max : nat)
    (start : bool) (s : string) :
  (exists q, In q (repeatFrom (run (CharClass ranges)) max 0 (start, s)) /\
             snd q = EmptyString) <->
  String.length s <= max /\
  Forall (fun c => inClass ranges c = true) (list_ascii_of_string s).
Proof.
  revert start s. induction max as [|max IH]; intros start s.
  - simpl. split.
    + intros (q & [<-|[]] & Hq). simpl in Hq. subst s. simpl. split; [lia | constructor].
    + intros [Hlen _]. destruct s; simpl in Hlen; [|lia].
      exists (start, EmptyString). split; [now left | reflexivity].
  - cbn [repeatFrom Nat.pred app]. destruct s as [|c rest].
    + split.
      * intros _. simpl. split; [lia | constructor].
      * intros _. exists (start, EmptyString). split; [now left | reflexivity].
    + cbn [run snd]. destruct (inClass ranges c) eqn:Hc.
      * cbn [flat_map]. rewrite app_nil_r. split.
        -- intros (q & [<-|Hin] & Hq); [discriminate|].
           destruct (IH false rest) as [Hfwd _].
           destruct Hfwd as [Hlen Hall]; [now exists q|].
           simpl. split; [lia | now constructor].
        -- intros [Hlen Hall]. simpl in Hlen, Hall. inversion Hall; subst.
           destruct (IH false rest) as [_ Hbwd].
           destruct Hbwd as (q & Hin & Hq); [split; [lia | assumption]|].
           exists q. split; [now right | assumption].
      * cbn [flat_map]. split.
        -- intros (q & [<-|[]] & Hq). discriminate.
        -- intros [_ Hall]. simpl in Hall. inversion Hall; subst. congruence.
Qed.

Lemma run_then_EndText (r : Regexp) (p : position) :
  run (Concat r EndText) p <> [] <->
  exists q, In q (run r p) /\ snd q = EmptyString.
Proof.
  cbn [run]. induction (run r p) as [|q qs IH]; cbn [flat_map].
  - split; [intros Hn; now destruct Hn | intros (q & [] & _)].
  - destruct q as [b s]. cbn [run snd]. destruct s as [|c s]; cbn [app].
    + split; [|discriminate]. intros _. exists (b, EmptyString). split; [now left | reflexivity].
    + rewrite IH. split.
      * intros (q & Hin & Hq). exists q. split; [now right | assumption].
      * intros (q & [<-|Hin] & Hq); [discriminate|]. now exists q.
Qed.

Lemma nameRegexp_not_inside (s : string) :
  existsb (fun p => match run nameRegexp p with [] => false | _ :: _ => true end)
          (positionsFrom false s) = false.
Proof. induction s as [|c s IH]; cbn [positionsFrom existsb]; [reflexivity | exact IH]. Qed.

Lemma run_Concat (r1 r2 : Regexp) (p : position) :
  run (Concat r1 r2) p = flat_map (run r2) (run r1 p).
Proof. reflexivity. Qed.

Lemma run_CharClass (ranges : list (ascii * ascii)) (start : bool) (c : ascii) (s : string) :
  run (CharClass ranges) (start, String c s) =
  if inClass ranges c then [(false, s)] else [].
Proof. reflexivity. Qed.

Lemma flat_map_one {A B : Type} (f : A -> list B) (x : A) :
  flat_map f [x] = f x.
Proof. simpl. apply app_nil_r. Qed.

Lemma MatchString_nameRegexp (s : string) :
  MatchString nameRegexp s = true <-> namingPattern s.
Proof.
  unfold MatchString.
  assert (Hhead : existsb
            (fun p => match run nameRegexp p with [] => false | _ :: _ => true end)
            (positionsFrom true s) =
          match run nameRegexp (true, s) with [] => false | _ :: _ => true end).
  { destruct s as [|c s]; cbn [positionsFrom existsb]; [apply orb_false_r|].
    now rewrite nameRegexp_not_inside, orb_false_r. }
  rewrite Hhead. clear Hhead.
  assert (Hne : forall l : list position,
            match l with [] => false | _ :: _ => true end = true <-> l <> [])
    by (intros [|q l]; split; congruence).
  rewrite Hne. clear Hne. unfold nameRegexp, namingPattern.
  set (body := Repeat (CharClass [("a"%char, "z"%char); ("0"%char, "9"%char)]) 0 62).
  rewrite run_Concat.
  change (run BeginText (true, s)) with [(true, s)].
  rewrite flat_map_one, run_Concat.
  destruct s as [|c s].
  - split; [intros Hn; now destruct Hn | intros (c & rest & Heq & _); discriminate].
  - rewrite run_CharClass.
    destruct (inClass [("a"%char, "z"%char)] c) eqn:Hc.
    + rewrite flat_map_one, run_then_EndText. subst body.
      change (run (Repeat ?r ?lo ?hi) ?p) with (repeatFrom (run r) hi lo p).
      rewrite repeat_class_reaches_end.
      apply inClass_letter in Hc. split.
      * intros [Hlen Hall]. exists c, s. repeat split; [apply Hc | apply Hc | | simpl; lia].
        eapply Forall_impl; [exact Hall|]. intros d Hd. now apply inClass_letter_digit.
      * intros (c' & rest & [= <- <-] & _ & Hall & Hlen). simpl in Hlen. split; [lia|].
        eapply Forall_impl; [exact Hall|]. intros d Hd. now apply inClass_letter_digit.
    + split; [intros Hn; now destruct Hn|]. intros (c' & rest & [= <- <-] & Hl & _).
      apply inClass_letter in Hl. congruence.
Qed.

End RegexpFacts.

Section CreateAppClaims.
Context `{AppPkg}.

(** C5. [isValid] accepts exactly the names of the naming pattern;
    [CreateApp] on a name outside the pattern returns the
    [ValidationError] and hands back the world untouched, no step of the
    pipeline having run; on a name of the pattern it does not fail fast:
    its outcome is the outcome of the pipeline. *)
Theorem CreateApp_validates_name_first (a : App) (w : World) :
  (isValid a = true <-> namingPattern (Name a)) /\
  (~ namingPattern (Name a) ->
     CreateApp a w = (w, Some (ValidationError invalidNameMessage))) /\
  (namingPattern (Name a) ->
     CreateApp a w = execute a [insertApp; createBucketIam; createRepository; provision] w).
Proof.
  assert (Hiff : isValid a = true <-> namingPattern (Name a))
    by apply MatchString_nameRegexp.
  split; [exact Hiff|]. unfold CreateApp. split.
  - intros Hbad. destruct (isValid a); [|reflexivity]. exfalso. now apply Hbad, Hiff.
  - intros Hgood. apply Hiff in Hgood. now rewrite Hgood.
Qed.

End CreateAppClaims.

(** * Teams *)

Section TeamFacts.

(** The search needs no more rounds than the interval has indexes. *)
Lemma searchLoop_rounds (rounds i j : nat) (f : nat -> option bool) :
  j - i <= rounds -> searchLoop (S rounds) i j f = searchLoop rounds i j f.
Proof.
  revert i j. induction rounds as [|rounds IH]; intros i j Hle.
  - simpl. destruct (Nat.ltb_spec i j); [lia | reflexivity].
  - change (searchLoop (S (S rounds)) i j f) with
      (if (i <? j)%nat then
         match f (Nat.div2 (i + j)) with
         | None => None
         | Some false => searchLoop (S rounds) (Nat.div2 (i + j) + 1) j f
         | Some true => searchLoop (S rounds) i (Nat.div2 (i + j)) f
         end
       else Some i).
    change (searchLoop (S rounds) i j f) with
      (if (i <? j)%nat then
         match f (Nat.div2 (i + j)) with
         | None => None
         | Some false => searchLoop rounds (Nat.div2 (i + j) + 1) j f
         | Some true => searchLoop rounds i (Nat.div2 (i + j)) f
         end
       else Some i).
    destruct (Nat.ltb_spec i j) as [Hlt|Hge]; [|reflexivity].
    pose proof (Nat.div2_odd (i + j)) as Hodd.
    destruct (Nat.odd (i + j)); simpl in Hodd;
      (destruct (f (Nat.div2 (i + j))) as [[|]|]; [| |reflexivity]; apply IH; lia).
Qed.

(** The search returns an index of the interval when the predicate does not
    panic on the indexes below [n]. *)
Lemma searchLoop_bounds (rounds i j n : nat) (f : nat -> option bool) :
  i <= j -> j <= n -> (forall h, h < n -> is_Some (f h)) ->
  exists pos, searchLoop rounds i j f = Some pos /\ i <= pos <= j.
Proof.
  intros Hij Hjn Htotal. revert i j Hij Hjn.
  induction rounds as [|rounds IH]; intros i j Hij Hjn; simpl.
  - exists i. split; [reflexivity | lia].
  - destruct (Nat.ltb_spec i j) as [Hlt|Hge]; [|exists i; split; [reflexivity | lia]].
    pose proof (Nat.div2_odd (i + j)) as Hodd.
    assert (Hh : i <= Nat.div2 (i + j) < j)
      by (destruct (Nat.odd (i + j)); simpl in Hodd; lia).
    destruct (Htotal (Nat.div2 (i + j))) as [b Hb]; [lia|]. rewrite Hb.
    destruct b.
    + destruct (IH i (Nat.div2 (i + j))) as (pos & Hpos & Hbd); [lia | lia |].
      exists pos. split; [assumption | lia].
    + destruct (IH (Nat.div2 (i + j) + 1) j) as (pos & Hpos & Hbd); [lia | lia |].
      exists pos. split; [assumption | lia].
Qed.

(** [Find] does not panic, and reports a team as found exactly when it
    stands at the position returned. *)
Lemma Find_total (team : auth.Team) (a : App) :
  exists pos found,
    Find team a = Some (pos, found) /\ pos <= length (Teams a) /\
    (found = true <-> Teams a !! pos = Some (auth.Name team)).
Proof.
  unfold Find, sort_Search.
  destruct (searchLoop_bounds (length (Teams a)) 0 (length (Teams a)) (length (Teams a))
              (fun i => option_map (String.leb (auth.Name team)) (Teams a !! i)))
    as (pos & Hpos & Hbd); [lia | lia | |].
  { intros h Hh. apply lookup_lt_is_Some_2 in Hh as [t Ht]. rewrite Ht. now eexists. }
  rewrite Hpos. destruct (Nat.ltb_spec pos (length (Teams a))) as [Hlt|Hge].
  - destruct (lookup_lt_is_Some_2 _ _ Hlt) as [t Ht]. rewrite Ht.
    exists pos, (String.eqb t (auth.Name team)). split; [reflexivity|]. split; [lia|].
    rewrite String.eqb_eq, Ht. split; [now intros -> | now intros [= ->]].
  - exists pos, false. split; [reflexivity|]. split; [lia|].
    rewrite lookup_ge_None_2 by lia. split; discriminate.
Qed.

(** The byte order of strings. *)
Lemma String_leb_trans (s t u : string) :
  String.leb s t = true -> String.leb t u = true -> String.leb s u = true.
Proof.
  unfold String.leb. revert t u.
  induction s as [|x s IH]; intros [|y t] [|z u]; simpl; try easy.
  unfold Ascii.compare.
  destruct (N.compare_spec (N_of_ascii x) (N_of_ascii y)) as [Hxy|Hxy|Hxy];
    destruct (N.compare_spec (N_of_ascii y) (N_of_ascii z)) as [Hyz|Hyz|Hyz];
    destruct (N.compare_spec (N_of_ascii x) (N_of_ascii z)) as [Hxz|Hxz|Hxz];
    try easy; try lia.
  apply IH.
Qed.

Lemma String_ltb_leb (s t : string) :
  String.ltb s t = true -> String.leb s t = true.
Proof. unfold String.ltb, String.leb. now destruct (String.compare s t). Qed.

Lemma String_leb_ltb_false (s t : string) :
  String.leb s t = false <-> String.ltb t s = true.
Proof.
  unfold String.ltb, String.leb. rewrite (String.compare_antisym t s).
  destruct (String.compare s t); simpl; split; congruence.
Qed.

Lemma String_ltb_irrefl (s : string) : String.ltb s s = false.
Proof.
  unfold String.ltb. pose proof (String.compare_antisym s s) as Hopp.
  destruct (String.compare s s); simpl in Hopp; congruence.
Qed.

(** On a predicate that switches once from false to true, the search
    returns the index of the switch. *)
Lemma searchLoop_least (rounds i j n : nat) (f : nat -> option bool) (g : nat -> bool) :
  (forall h, h < n -> f h = Some (g h)) ->
  (forall h k, h <= k -> k < n -> g h = true -> g k = true) ->
  i <= j -> j <= n -> j - i <= rounds ->
  (forall h, h < i -> g h = false) ->
  (forall h, j <= h -> h < n -> g h = true) ->
  exists pos,
    searchLoop rounds i j f = Some pos /\ i <= pos <= j /\
    (forall h, h < pos -> g h = false) /\
    (forall h, pos <= h -> h < n -> g h = true).
Proof.
  intros Hf Hmono. revert i j.
  induction rounds as [|rounds IH]; intros i j Hij Hjn Hrounds Hbelow Habove.
  - exists i. simpl. repeat split; [lia | lia | assumption |].
    intros h Hh. apply Habove. lia.
  - simpl. destruct (Nat.ltb_spec i j) as [Hlt|Hge].
    + pose proof (Nat.div2_odd (i + j)) as Hodd.
      assert (Hh : i <= Nat.div2 (i + j) < j)
        by (destruct (Nat.odd (i + j)); simpl in Hodd; lia).
      rewrite Hf by lia. destruct (g (Nat.div2 (i + j))) eqn:Hg.
      * destruct (IH i (Nat.div2 (i + j))) as (pos & Hpos & Hbd & Hlow & Hhigh);
          [lia | lia | lia | assumption | |].
        { intros h Hh1 Hh2. now apply (Hmono (Nat.div2 (i + j))). }
        exists pos. repeat split; [assumption | lia | lia | assumption | assumption].
      * destruct (IH (Nat.div2 (i + j) + 1) j) as (pos & Hpos & Hbd & Hlow & Hhigh);
          [lia | lia | lia | | assumption |].
        { intros h Hh1. destruct (g h) eqn:Hgh; [|reflexivity].
          rewrite <- Hg. symmetry. apply (Hmono h); [lia | lia | assumption]. }
        exists pos. repeat split; [assumption | lia | lia | assumption | assumption].
    + exists i. repeat split; [lia | lia | assumption |].
      intros h Hh. apply Habove. lia.
Qed.

(** On a sorted list [Find] returns the position at which the team stands
    or belongs: the teams before it are smaller, the teams from it on are
    not. *)
Lemma Find_ascending (team : auth.Team) (a : App) :
  ascending (Teams a) ->
  exists pos found,
    Find team a = Some (pos, found) /\ pos <= length (Teams a) /\
    (forall h s, h < pos -> Teams a !! h = Some s -> String.ltb s (auth.Name team) = true) /\
    (forall h s, pos <= h -> Teams a !! h = Some s -> String.leb (auth.Name team) s = true) /\
    (found = true <-> auth.Name team ∈ Teams a).
Proof.
  intros Hasc. set (teams := Teams a). set (t := auth.Name team).
  pose (g := fun i => String.leb t (default EmptyString (teams !! i))).
  destruct (searchLoop_least (length teams) 0 (length teams) (length teams)
              (fun i => option_map (String.leb t) (teams !! i)) g)
    as (pos & Hpos & Hbd & Hlow & Hhigh); try lia.
  { intros h Hh. destruct (lookup_lt_is_Some_2 teams h Hh) as [s Hs].
    unfold g. now rewrite Hs. }
  { intros h k Hhk Hk. unfold g.
    destruct (lookup_lt_is_Some_2 teams h) as [s Hs]; [lia|].
    destruct (lookup_lt_is_Some_2 teams k Hk) as [u Hu].
    rewrite Hs, Hu. simpl. intros Hts.
    destruct (decide (h = k)) as [->|Hne]; [congruence|].
    apply (String_leb_trans t s u); [assumption|].
    apply String_ltb_leb, (Hasc h k); [lia | assumption | assumption]. }
  assert (Hbefore : forall h s, h < pos -> teams !! h = Some s -> String.ltb s t = true).
  { intros h s Hh Hs. apply String_leb_ltb_false.
    specialize (Hlow h Hh). unfold g in Hlow. now rewrite Hs in Hlow. }
  assert (Hfrom : forall h s, pos <= h -> teams !! h = Some s -> String.leb t s = true).
  { intros h s Hh Hs. assert (Hlt : h < length teams) by (apply lookup_lt_is_Some; eauto).
    specialize (Hhigh h Hh Hlt). unfold g in Hhigh. now rewrite Hs in Hhigh. }
  destruct (Find_total team a) as (pos' & found & Hfind & Hle & Hfound).
  assert (pos' = pos).
  { unfold Find, sort_Search in Hfind. fold teams t in Hfind. rewrite Hpos in Hfind.
    destruct (pos <? length teams)%nat; [|congruence].
    destruct (teams !! pos); congruence. }
  subst pos'. exists pos, found. repeat split; try assumption.
  - intros Hf. apply Hfound in Hf. eapply list_elem_of_lookup_2; eassumption.
  - intros Hin. apply Hfound. apply list_elem_of_lookup in Hin as [h Hh].
    destruct (Nat.lt_trichotomy h pos) as [Hlt|[->|Hgt]]; [|assumption|].
    + specialize (Hbefore h t Hlt Hh). now rewrite String_ltb_irrefl in Hbefore.
    + destruct (lookup_lt_is_Some_2 teams pos) as [s Hs];
        [apply lookup_lt_Some in Hh; lia|].
      pose proof (Hasc pos h s t Hgt Hs Hh) as Hst.
      pose proof (Hfrom pos s (Nat.le_refl _) Hs) as Hts.
      apply String_leb_ltb_false in Hst. congruence.
Qed.

Lemma store_Some {A : Type} (s : list A) (i : nat) (v : A) :
  i < length s -> store s i v = Some (<[i := v]> s).
Proof. intros Hlt. unfold store. now destruct (Nat.ltb_spec i (length s)); [|lia]. Qed.

(** What the loop of [Grant] leaves: [tmp] is read back from the slot that
    was just written, so every slot it visits receives the same team. *)
Lemma shiftLoop_spec (rounds i : nat) (teams : list string) (tmp : string) :
  teams !! i = Some tmp -> i + rounds < length teams ->
  shiftLoop rounds i teams tmp =
    Some (take (S i) teams ++ replicate rounds tmp ++ drop (S i + rounds) teams).
Proof.
  revert i teams. induction rounds as [|rounds IH]; intros i teams Hi Hlen.
  - simpl. now rewrite Nat.add_0_r, take_drop.
  - cbn [shiftLoop]. rewrite Hi. unfold store.
    destruct (Nat.ltb_spec (i + 1) (length teams)) as [_|Hge]; [|lia].
    rewrite Nat.add_1_r.
    assert (Hat : <[S i := tmp]> teams !! S i = Some tmp)
      by (apply list_lookup_insert_eq; lia).
    rewrite IH; [|assumption | rewrite length_insert; lia].
    f_equal. rewrite (take_S_r _ _ _ Hat), take_insert_ge by lia.
    rewrite drop_insert_lt by lia. rewrite <- app_assoc. simpl.
    now replace (S (i + S rounds)) with (S (S (i + rounds))) by lia.
Qed.

(** The outcome of [Grant] for a team that [Find] does not find: the teams
    before the position are kept, the team is stored at the position, and
    every later slot holds the team that stood at the position. *)
Lemma Grant_outcome (team : auth.Team) (a : App) (pos : nat) :
  Find team a = Some (pos, false) ->
  Grant team a =
    Some (with_Teams
            (take pos (Teams a) ++ auth.Name team ::
             replicate (length (Teams a) - pos) (default EmptyString (Teams a !! pos))) a,
          None).
Proof.
  intros Hfind. destruct (Find_total team a) as (pos' & found & Hf & Hle & _).
  rewrite Hfind in Hf. injection Hf as <- <-.
  unfold Grant. rewrite Hfind.
  set (teams := Teams a) in *.
  assert (Hlen : length (teams ++ [EmptyString]) = S (length teams))
    by (rewrite length_app; simpl; lia).
  destruct (lookup_lt_is_Some_2 (teams ++ [EmptyString]) pos) as [tmp Htmp]; [lia|].
  rewrite Htmp, Hlen.
  replace (S (length teams) - 1 - pos) with (length teams - pos) by lia.
  rewrite (shiftLoop_spec _ _ _ _ Htmp) by lia.
  rewrite drop_ge by lia. rewrite app_nil_r.
  rewrite (take_S_r _ _ _ Htmp), take_app_le by lia.
  assert (Htake : length (take pos teams) = pos) by (rewrite length_take; lia).
  rewrite store_Some
    by (rewrite !length_app, Htake, length_replicate; simpl; lia).
  do 3 f_equal.
  rewrite <- app_assoc, insert_app_r_alt by lia.
  rewrite Htake, Nat.sub_diag. simpl. do 3 f_equal.
  destruct (decide (pos < length teams)) as [Hlt|Hnlt].
  - rewrite lookup_app_l in Htmp by lia. now rewrite Htmp.
  - rewrite lookup_app_r in Htmp by lia.
    replace (pos - length teams) with 0 in Htmp by lia.
    rewrite lookup_ge_None_2 by lia. simpl in *. congruence.
Qed.

(** With at most one team after the position, [Grant] inserts the team at
    the position. *)
Lemma Grant_near_end (team : auth.Team) (a : App) (pos : nat) :
  Find team a = Some (pos, false) ->
  length (Teams a) <= S pos ->
  Grant team a =
    Some (with_Teams (take pos (Teams a) ++ auth.Name team :: drop pos (Teams a)) a, None).
Proof.
  intros Hfind Hlen. rewrite (Grant_outcome _ _ _ Hfind). do 4 f_equal.
  destruct (Teams a !! pos) as [t|] eqn:Ht.
  - assert (Hlt : pos < length (Teams a)) by (apply lookup_lt_is_Some; eauto).
    replace (length (Teams a) - pos) with 1 by lia. simpl.
    rewrite (drop_S _ _ _ Ht), drop_ge by lia. reflexivity.
  - apply lookup_ge_None in Ht. rewrite drop_ge by lia.
    now replace (length (Teams a) - pos) with 0 by lia.
Qed.

(** [Revoke] of a team that [Find] finds removes the team at the position
    found and keeps the others in their order. *)
Lemma Revoke_outcome (team : auth.Team) (a : App) (index : nat) :
  Find team a = Some (index, true) ->
  Revoke team a =
    Some (with_Teams (take index (Teams a) ++ drop (S index) (Teams a)) a, None).
Proof.
  intros Hfind. destruct (Find_total team a) as (pos & found & Hf & _ & Hfound).
  rewrite Hfind in Hf. injection Hf as <- <-.
  assert (Hlt : index < length (Teams a))
    by (apply lookup_lt_is_Some; eexists; now apply Hfound).
  unfold Revoke. rewrite Hfind. do 3 f_equal.
  unfold copy. rewrite !length_drop, Nat.add_1_r.
  replace (Nat.min (length (Teams a) - index) (length (Teams a) - S index))
    with (length (Teams a) - S index) by lia.
  rewrite (take_ge (drop (S index) (Teams a))) by (rewrite length_drop; lia).
  rewrite !length_app, length_take, !length_drop.
  rewrite app_assoc, take_app_length'; [reflexivity|].
  rewrite length_app, length_take, length_drop. lia.
Qed.

Lemma String_leb_neq_ltb (s t : string) :
  String.leb s t = true -> s <> t -> String.ltb s t = true.
Proof.
  unfold String.leb, String.ltb. intros Hle Hne.
  destruct (String.compare s t) eqn:Hc; [|reflexivity|discriminate].
  apply String.compare_eq_iff in Hc. contradiction.
Qed.

Lemma ascending_lookup_inj (teams : list string) (i j : nat) (s : string) :
  ascending teams -> teams !! i = Some s -> teams !! j = Some s -> i = j.
Proof.
  intros Hasc Hi Hj. destruct (Nat.lt_trichotomy i j) as [Hlt|[Heq|Hgt]]; [|assumption|].
  - pose proof (Hasc i j s s Hlt Hi Hj) as Habs.
    now rewrite String_ltb_irrefl in Habs.
  - pose proof (Hasc j i s s Hgt Hj Hi) as Habs.
    now rewrite String_ltb_irrefl in Habs.
Qed.

Lemma lookup_inserted (teams : list string) (pos i : nat) (t : string) :
  pos <= length teams ->
  (take pos teams ++ t :: drop pos teams) !! i =
    if decide (i < pos) then teams !! i
    else if decide (i = pos) then Some t else teams !! (i - 1).
Proof.
  intros Hpos. assert (Hlen : length (take pos teams) = pos) by (rewrite length_take; lia).
  destruct (decide (i < pos)) as [Hlt|Hge].
  - rewrite lookup_app_l by lia. now apply lookup_take_lt.
  - rewrite lookup_app_r by lia. rewrite Hlen.
    destruct (decide (i = pos)) as [->|Hne].
    + now rewrite Nat.sub_diag.
    + replace (i - pos) with (S (i - pos - 1)) by lia. simpl.
      rewrite lookup_drop. f_equal. lia.
Qed.

(** Inserting a team at the position [Find] returns keeps a list sorted. *)
Lemma ascending_inserted (teams : list string) (pos : nat) (t : string) :
  ascending teams -> pos <= length teams ->
  (forall h s, h < pos -> teams !! h = Some s -> String.ltb s t = true) ->
  (forall h s, pos <= h -> teams !! h = Some s -> String.ltb t s = true) ->
  ascending (take pos teams ++ t :: drop pos teams).
Proof.
  intros Hasc Hpos Hbefore Hafter i j s u Hij.
  rewrite !lookup_inserted by assumption.
  destruct (decide (i < pos)) as [Hi|Hi].
  - destruct (decide (j < pos)) as [Hj|Hj]; [now apply Hasc|].
    destruct (decide (j = pos)) as [->|Hj'].
    + intros Hs [= <-]. now apply (Hbefore i).
    + apply Hasc. lia.
  - destruct (decide (j < pos)) as [Hj|Hj]; [lia|].
    destruct (decide (j = pos)) as [->|Hj']; [lia|].
    destruct (decide (i = pos)) as [->|Hi'].
    + intros [= <-] Hu. apply (Hafter (j - 1)); [lia | assumption].
    + apply Hasc. lia.
Qed.

(** Where [Find] places a team that a sorted list does not hold. *)
Lemma Find_absent (team : auth.Team) (a : App) :
  ascending (Teams a) -> auth.Name team ∉ Teams a ->
  exists pos,
    Find team a = Some (pos, false) /\ pos <= length (Teams a) /\
    (forall h s, h < pos -> Teams a !! h = Some s -> String.ltb s (auth.Name team) = true) /\
    (forall h s, pos <= h -> Teams a !! h = Some s -> String.ltb (auth.Name team) s = true).
Proof.
  intros Hasc Hnot.
  destruct (Find_ascending team a Hasc) as (pos & found & Hfind & Hle & Hlow & Hhigh & Hfound).
  exists pos. destruct found.
  - exfalso. now apply Hnot, Hfound.
  - repeat split; try assumption.
    intros h s Hh Hs. apply String_leb_neq_ltb; [now apply (Hhigh h)|].
    intros <-. apply Hnot. eapply list_elem_of_lookup_2; eassumption.
Qed.

(** X29. On a sorted list with two or more teams larger than the one
    granted, [Grant] loses the largest team. *)
Lemma Grant_loses_last_team (team : auth.Team) (a : App) (pos : nat) (lost : string) :
  ascending (Teams a) -> auth.Name team ∉ Teams a ->
  Find team a = Some (pos, false) ->
  S pos < length (Teams a) ->
  last (Teams a) = Some lost ->
  exists a', Grant team a = Some (a', None) /\ lost ∈ Teams a /\ lost ∉ Teams a'.
Proof.
  intros Hasc Hnot Hfind Hlen Hlast.
  rewrite last_lookup in Hlast.
  eexists. split; [exact (Grant_outcome _ _ _ Hfind)|]. split.
  - eapply list_elem_of_lookup_2; eassumption.
  - simpl. intros Hin.
    destruct (lookup_lt_is_Some_2 (Teams a) pos) as [atPos HatPos]; [lia|].
    rewrite HatPos in Hin. simpl in Hin.
    assert (Hsmaller : forall h s, h <= pos -> Teams a !! h = Some s -> s <> lost).
    { intros h s Hh Hs ->.
      assert (h = pred (length (Teams a)))
        by (eapply ascending_lookup_inj; eassumption).
      lia. }
    apply elem_of_app in Hin as [Hin|Hin].
    + apply elem_of_take in Hin as (h & Hh & Hlt). apply (Hsmaller h lost); [lia | assumption | reflexivity].
    + apply elem_of_cons in Hin as [->|Hin].
      * apply Hnot. eapply list_elem_of_lookup_2; eassumption.
      * apply elem_of_replicate in Hin as [-> _].
        now apply (Hsmaller pos atPos).
Qed.

(** X28. On a sorted list with at most one team larger than the one
    granted, [Grant] inserts the team in its place and [Revoke] restores
    the list. *)
Lemma Grant_Revoke_near_end (team : auth.Team) (a : App) (pos : nat) :
  ascending (Teams a) -> auth.Name team ∉ Teams a ->
  Find team a = Some (pos, false) ->
  length (Teams a) <= S pos ->
  exists a',
    Grant team a = Some (a', None) /\
    Teams a' = take pos (Teams a) ++ auth.Name team :: drop pos (Teams a) /\
    ascending (Teams a') /\
    Revoke team a' = Some (with_Teams (Teams a) a', None).
Proof.
  intros Hasc Hnot Hfind Hlen.
  destruct (Find_absent team a Hasc Hnot) as (pos' & Hfind' & Hle & Hlow & Hhigh).
  rewrite Hfind in Hfind'. injection Hfind' as <-.
  eexists. split; [exact (Grant_near_end _ _ _ Hfind Hlen)|]. simpl.
  assert (Hsorted : ascending (take pos (Teams a) ++ auth.Name team :: drop pos (Teams a)))
    by now apply ascending_inserted.
  split; [reflexivity|]. split; [assumption|].
  set (a' := with_Teams (take pos (Teams a) ++ auth.Name team :: drop pos (Teams a)) a).
  assert (Hat : Teams a' !! pos = Some (auth.Name team)).
  { subst a'. simpl. rewrite lookup_inserted by assumption.
    destruct (decide (pos < pos)); [lia|]. now destruct (decide (pos = pos)). }
  destruct (Find_ascending team a' Hsorted) as (index & found & Hf & _ & _ & _ & Hfound).
  destruct (Find_total team a') as (index' & found' & Hf' & _ & Hfound').
  rewrite Hf in Hf'. injection Hf' as <- <-.
  assert (Htrue : found = true)
    by (apply Hfound; eapply list_elem_of_lookup_2; exact Hat).
  subst found.
  assert (index = pos).
  { eapply ascending_lookup_inj; [exact Hsorted | | exact Hat]. now apply Hfound'. }
  subst index. rewrite (Revoke_outcome _ _ _ Hf). do 3 f_equal.
  subst a'. simpl.
  assert (Htake : length (take pos (Teams a)) = pos) by (rewrite length_take; lia).
  rewrite take_app_length' by lia.
  rewrite drop_app_ge by lia. rewrite Htake.
  replace (S pos - pos) with 1 by lia. simpl. rewrite drop_0. apply take_drop.
Qed.

(** C1. On the teams ["a"; "c"; "d"], [Grant] of team ["b"] returns nil
    and leaves ["a"; "b"; "c"; "c"]: team ["d"] is overwritten; [Revoke] of
    ["b"] then leaves ["a"; "c"; "c"], not the original teams. *)
Theorem Grant_then_Revoke_loses_a_team :
  let a := mkApp ∅ "django" [] "myapp" "started" [] ["a"; "c"; "d"] None in
  let b := auth.mkTeam "b" in
  Find b a = Some (1, false) /\
  Grant b a = Some (with_Teams ["a"; "b"; "c"; "c"] a, None) /\
  Revoke b (with_Teams ["a"; "b"; "c"; "c"] a) = Some (with_Teams ["a"; "c"; "c"] a, None) /\
  Teams (with_Teams ["a"; "c"; "c"] a) <> Teams a.
Proof.
  cbv zeta. repeat split; try reflexivity. discriminate.
Qed.

End TeamFacts.

(** * The properties on the sample states *)

(** A batch whose second address is flagged is rejected as a whole. *)
Lemma batch_rejected_on_sample :
  AddRoutes "myapp" ["http://10.10.10.12:8080"; "http://10.10.10.11:8080"] sampleRegistry
    = (sampleRegistry, Some ErrForcedFailure) /\
  RemoveRoutes "myapp" ["http://10.10.10.12:8080"; "http://10.10.10.11:8080"] sampleRegistry
    = (sampleRegistry, Some ErrForcedFailure).
Proof.
  apply (@batch_rejected_on_forced_failure sampleRouterPkg
           "myapp" "myapp" "http://10.10.10.11:8080").
  - reflexivity.
  - reflexivity.
  - right. left.
  - reflexivity.
Defined.

(** ["blue"] was swapped onto ["myapp"]; ["ghost"] has no backend. *)
Lemma RemoveBackend_on_sample :
  RemoveBackend "blue" sampleRegistry = (sampleRegistry, Some ErrBackendSwapped) /\
  RemoveBackend "ghost" sampleRegistry = (sampleRegistry, Some ErrBackendNotFound).
Proof.
  split.
  - apply (proj1 (@RemoveBackend_swapped_or_not_found sampleRouterPkg
                    "blue" "myapp" sampleRegistry eq_refl)).
    discriminate.
  - apply (proj2 (@RemoveBackend_swapped_or_not_found sampleRouterPkg
                    "ghost" "ghost" sampleRegistry eq_refl)); reflexivity.
Defined.

(** C4, the counterexample. Removing ["myapp"] from the sample registry
    succeeds and its health record is still stored afterwards. *)
Lemma health_record_survives_removal :
  ~ @purges_aliases_health_and_routes sampleRouterPkg "myapp" sampleRegistry.
Proof.
  intros Hpurge.
  destruct (Hpurge (fst (RemoveBackend "myapp" sampleRegistry)) eq_refl)
    as (_ & Hhealth & _).
  vm_compute in Hhealth. discriminate Hhealth.
Qed.

Lemma RemoveBackend_purges_on_sample :
  let g' := fst (RemoveBackend "myapp" sampleRegistry) in
  cnames (fake g') !! "myapp.example.com" = None /\
  backends (fake g') !! "myapp" = None /\
  healthcheck (fake g') !! "myapp" = Some "/healthcheck".
Proof.
  pose proof (@RemoveBackend_purges_aliases_and_routes sampleRouterPkg "myapp"
                sampleRegistry (fst (RemoveBackend "myapp" sampleRegistry)) eq_refl)
    as (_ & _ & Hroutes & _ & Hhealth).
  cbv zeta. split; [|split].
  - reflexivity.
  - exact Hroutes.
  - rewrite Hhealth. reflexivity.
Defined.

(** C7, the counterexample. On the sample registry the address flagged as
    failing is not a route of ["myapp"], and removing it returns
    [ErrForcedFailure]. *)
Lemma absent_flagged_address_is_an_error :
  ~ @duplicate_add_and_absent_remove_are_silent sampleRouterPkg "myapp" sampleRegistry.
Proof.
  intros Hsilent.
  destruct (Hsilent "myapp" ["http://10.10.10.10:8080"] "http://10.10.10.11:8080"
              eq_refl eq_refl) as [_ Hremove].
  assert (Habsent : "http://10.10.10.11:8080" ∉ ["http://10.10.10.10:8080"]).
  { intros Hin. apply list_elem_of_singleton in Hin. discriminate Hin. }
  destruct (Hremove Habsent) as (g' & Hnil & _).
  vm_compute in Hnil. discriminate Hnil.
Qed.

(** Adding the route that is there changes nothing; so does removing one
    that is not, with an error when the absent address is flagged. *)
Lemma duplicate_add_on_sample :
  AddRoutes "myapp" ["http://10.10.10.10:8080"] sampleRegistry = (sampleRegistry, None) /\
  RemoveRoutes "myapp" ["http://10.10.10.12:8080"] sampleRegistry = (sampleRegistry, None) /\
  RemoveRoutes "myapp" ["http://10.10.10.11:8080"] sampleRegistry
    = (sampleRegistry, Some ErrForcedFailure).
Proof.
  destruct (@duplicate_add_and_absent_remove sampleRouterPkg "myapp" "myapp"
              ["http://10.10.10.10:8080"] ["http://10.10.10.10:8080"] sampleRegistry
              eq_refl eq_refl)
    as [(g' & err & routes' & Hadd & _ & _ & _ & Hok & Hsame) _].
  destruct (Hok eq_refl) as [-> _].
  rewrite (Hsame (fun a Ha => Ha)) in Hadd.
  split; [exact Hadd|]. split.
  - apply (proj1 (proj2 (proj2
             (@duplicate_add_and_absent_remove sampleRouterPkg "myapp" "myapp"
                ["http://10.10.10.10:8080"] ["http://10.10.10.12:8080"] sampleRegistry
                eq_refl eq_refl)))).
    intros a Ha Hin. apply list_elem_of_singleton in Ha, Hin. subst a. discriminate Hin.
  - apply (proj1 (proj2 (proj2
             (@duplicate_add_and_absent_remove sampleRouterPkg "myapp" "myapp"
                ["http://10.10.10.10:8080"] ["http://10.10.10.11:8080"] sampleRegistry
                eq_refl eq_refl)))).
    intros a Ha Hin. apply list_elem_of_singleton in Ha, Hin. subst a. discriminate Hin.
Defined.

(** An alias under the domain of the router, and an alias that is taken,
    are both accepted without effect for a name with no backend. *)
Lemma SetCName_on_sample :
  @ValidCName sampleRouterPkg "myapp.fakerouter.com" "fakerouter.com" = false /\
  SetCName "myapp.fakerouter.com" "ghost" sampleRegistry = (sampleRegistry, None) /\
  SetCName "myapp.example.com" "ghost" sampleRegistry = (sampleRegistry, None) /\
  SetCName "myapp.fakerouter.com" "myapp" sampleRegistry
    = (sampleRegistry, Some ErrCNameNotAllowed) /\
  SetCName "myapp.example.com" "myapp" sampleRegistry
    = (sampleRegistry, Some ErrCNameExists).
Proof.
  split; [reflexivity|]. split; [|split].
  - apply (proj1 (@SetCName_checks_backend_first sampleRouterPkg
                    "myapp.fakerouter.com" "ghost" sampleRegistry) "ghost");
      reflexivity.
  - apply (proj1 (@SetCName_checks_backend_first sampleRouterPkg
                    "myapp.example.com" "ghost" sampleRegistry) "ghost");
      reflexivity.
  - split; reflexivity.
Defined.

(** A third unit on machine 2 takes the place of the second one. *)
Lemma AddUnit_on_sample :
  Units (AddUnit (mkUnit 2 "myapp/2" "10.10.10.12") (sampleApp "myapp")) =
    [mkUnit 1 "myapp/0" "10.10.10.10"; mkUnit 2 "myapp/2" "10.10.10.12"] /\
  Units (AddUnit (mkUnit 3 "myapp/2" "10.10.10.12") (sampleApp "myapp")) =
    [mkUnit 1 "myapp/0" "10.10.10.10"; mkUnit 2 "myapp/1" "10.10.10.11";
     mkUnit 3 "myapp/2" "10.10.10.12"].
Proof.
  split.
  - apply (proj1 (AddUnit_replaces_or_appends
                    (mkUnit 2 "myapp/2" "10.10.10.12") (sampleApp "myapp"))
             1 (mkUnit 2 "myapp/1" "10.10.10.11")); [reflexivity | reflexivity |].
    intros [|j] unt' Hj; [intros [= <-]; discriminate | lia].
  - apply (proj1 (proj2 (AddUnit_replaces_or_appends
                           (mkUnit 3 "myapp/2" "10.10.10.12") (sampleApp "myapp")))).
    intros unt Hin. simpl in Hin.
    apply elem_of_cons in Hin as [->|Hin]; [discriminate|].
    apply list_elem_of_singleton in Hin. subst unt. discriminate.
Defined.

(** A name with an uppercase letter is refused and no step runs; a name of
    the pattern goes through the four steps. *)
Lemma CreateApp_on_sample :
  @CreateApp sampleAppPkg (sampleApp "myApp") []
    = ([], Some (ValidationError invalidNameMessage)) /\
  @CreateApp sampleAppPkg (sampleApp "myapp2") []
    = ([insertApp; createBucketIam; createRepository; provision], None).
Proof.
  destruct (@CreateApp_validates_name_first sampleAppPkg (sampleApp "myApp") [])
    as (Hiff & Hbad & _).
  destruct (@CreateApp_validates_name_first sampleAppPkg (sampleApp "myapp2") [])
    as (Hiff' & _ & Hgood).
  split.
  - apply Hbad. intros Hpat. apply Hiff in Hpat. discriminate Hpat.
  - rewrite Hgood; [reflexivity|]. apply Hiff'. reflexivity.
Defined.

(** The unit of ["down"] refuses the command: no error, no hooks.  The unit
    of ["myapp"] prints a file that does not parse: the parse error.  Where
    the path of the repository is not configured: the error of the path. *)
Lemma loadHooks_on_sample :
  snd (@loadHooks sampleAppPkg (sampleApp "down")) = None /\
  hooks (fst (@loadHooks sampleAppPkg (sampleApp "down"))) = Some (mkConf [] []) /\
  snd (@loadHooks sampleAppPkg (sampleApp "myapp"))
    = Some (ErrCollaborator "yaml: did not find expected node") /\
  snd (@loadHooks sampleAppPkgNoPath (sampleApp "myapp"))
    = Some (ErrCollaborator "key git:unit-repo not found") /\
  hooks (fst (@loadHooks sampleAppPkgNoPath (sampleApp "myapp"))) = Some (mkConf [] []).
Proof.
  pose proof (@loadHooks_fetch_failure_and_parse_error sampleAppPkg (sampleApp "down")
                eq_refl) as (_ & Hdown & _).
  pose proof (@loadHooks_fetch_failure_and_parse_error sampleAppPkg (sampleApp "myapp")
                eq_refl) as (_ & _ & Hparse).
  pose proof (@loadHooks_fetch_failure_and_parse_error sampleAppPkgNoPath
                (sampleApp "myapp") eq_refl) as (Hpath & _).
  destruct (Hdown "/home/application/current" EmptyString
              (ErrCollaborator "unit is down") eq_refl eq_refl) as [Hnil Hempty].
  destruct (Hpath (ErrCollaborator "key git:unit-repo not found") eq_refl)
    as [Herr Hempty'].
  split; [exact Hnil|]. split; [exact Hempty|]. split; [|split].
  - apply (Hparse "/home/application/current" "pre-restart: [" (mkConf [] []));
      reflexivity.
  - exact Herr.
  - exact Hempty'.
Defined.

(** C8, the counterexample. Where the path of the repository is not
    configured, fetching the hook source fails at its first step and
    [loadHooks] returns the error instead of nil. *)
Lemma missing_repository_path_is_fatal :
  ~ @fetch_failure_is_not_fatal sampleAppPkgNoPath (sampleApp "myapp").
Proof.
  intros Hsilent.
  destruct (Hsilent eq_refl) as [Hnil _].
  - left. exists (ErrCollaborator "key git:unit-repo not found"). reflexivity.
  - vm_compute in Hnil. discriminate Hnil.
Qed.

(** The two calls of the specification, on the sample application. *)
Lemma SetEnvsToApp_on_sample :
  let x1 := bind.mkEnvVar "X" "1" false EmptyString in
  let x2 := bind.mkEnvVar "X" "2" true EmptyString in
  let app1 := fst (@SetEnvsToApp sampleAppPkg [x1] false false (sampleApp "myapp")) in
  Env (fst (@SetEnvsToApp sampleAppPkg [x2] true false app1)) !! "X" = Some x1 /\
  Env (fst (@SetEnvsToApp sampleAppPkg [x2] false false app1)) !! "X" = Some x2.
Proof.
  exact (proj2 (proj2 (proj2 (proj2 (proj2 (proj2
           (@SetEnvsToApp_public_only sampleAppPkg [] false (sampleApp "myapp")))))))).
Defined.

(** * Further properties of the fake router *)

Section FakeRouterMore.
Context `{RouterPkg}.

Lemma registry_eq (g g' : registry) :
  backends (fake g) = backends (fake g') -> cnames (fake g) = cnames (fake g') ->
  failuresByIp (fake g) = failuresByIp (fake g') ->
  healthcheck (fake g) = healthcheck (fake g') ->
  resolution g = resolution g' -> g = g'.
Proof.
  destruct g as [[b c f h] r], g' as [[b' c' f' h'] r']. simpl.
  now intros -> -> -> -> ->.
Qed.

Lemma store_routes_id (g : registry) (backendName : string) (routes : list string) :
  backends (fake g) !! backendName = Some routes ->
  with_fake (with_backends (<[backendName := routes]> (backends (fake g))) (fake g)) g = g.
Proof.
  intros Hb. apply registry_eq; try reflexivity. simpl. now apply insert_id.
Qed.

Lemma anyFailing_ext (r r' : fakeRouter) (addresses : list string) :
  failuresByIp r = failuresByIp r' -> anyFailing r addresses = anyFailing r' addresses.
Proof.
  intros Heq. induction addresses as [|addr rest IH]; simpl; [reflexivity|].
  unfold failing. now rewrite Heq, IH.
Qed.

Lemma indexFrom_fresh_end (i : nat) (routes : list string) (address : string) :
  address ∉ routes -> indexFrom i (routes ++ [address]) address = Some (i + length routes).
Proof.
  revert i. induction routes as [|route rest IH]; intros i Hnot; simpl.
  - rewrite String.eqb_refl. f_equal. lia.
  - apply not_elem_of_cons in Hnot as [Hne Hnot].
    assert (Hneq : String.eqb route address = false) by (apply String.eqb_neq; congruence).
    rewrite Hneq, IH by assumption. f_equal. lia.
Qed.

(** X1. [AddBackend] of a name that is registered returns
    [ErrBackendExists] and changes nothing.  For a name that is not, it
    returns nil, registers the name with no route, makes the name resolve
    to itself, leaves every other backend, every other resolution and the
    aliases as they were, and a second [AddBackend] of the name is
    refused. *)
Theorem AddBackend_registers_once (name : string) (g : registry) :
  (HasBackend name (fake g) = true -> AddBackend name g = (g, Some ErrBackendExists)) /\
  (HasBackend name (fake g) = false ->
     exists g',
       AddBackend name g = (g', None) /\
       backends (fake g') !! name = Some [] /\
       Retrieve name g' = inr name /\
       (forall other, other <> name ->
          backends (fake g') !! other = backends (fake g) !! other /\
          Retrieve other g' = Retrieve other g) /\
       cnames (fake g') = cnames (fake g) /\
       AddBackend name g' = (g', Some ErrBackendExists)).
Proof.
  unfold AddBackend. split; intros Hhas; rewrite Hhas; [reflexivity|].
  eexists. split; [reflexivity|]. unfold Store, Retrieve, HasBackend. simpl.
  rewrite !lookup_insert_eq. repeat split.
  - now rewrite lookup_insert_ne by congruence.
  - now rewrite lookup_insert_ne by congruence.
Qed.

(** X2. [RemoveBackend] undoes [AddBackend]: for a name that is not
    registered, has no resolution record and is the target of no alias,
    adding the backend and removing it gives back the registry. *)
Theorem RemoveBackend_undoes_AddBackend (name : string) (g : registry) :
  HasBackend name (fake g) = false ->
  resolution g !! name = None ->
  (forall cname, cnames (fake g) !! cname <> Some name) ->
  RemoveBackend name (fst (AddBackend name g)) = (g, None).
Proof.
  intros Hhas Hres Halias. unfold AddBackend. rewrite Hhas.
  unfold RemoveBackend, Store, Retrieve, HasBackend, Remove. simpl.
  rewrite !lookup_insert_eq, String.eqb_refl. simpl. f_equal.
  unfold HasBackend in Hhas.
  destruct (backends (fake g) !! name) eqn:Hb; [discriminate|].
  apply registry_eq; simpl; try reflexivity.
  - now apply delete_insert_id.
  - unfold purgeCNames. apply map_filter_id. intros cname backend Hc. simpl.
    intros ->. now apply (Halias cname).
  - now apply delete_insert_id.
Qed.

(** X3. For a name that resolves to a registered backend, [AddRoute] of an
    address among the routes returns [ErrRouteExists], also when the
    address is flagged as failing; of another address that is flagged it
    returns [ErrForcedFailure]; both leave the registry as it was.
    Otherwise it returns nil, appends the address to the routes,
    [HasRoute] holds of it and a second [AddRoute] is refused. *)
Theorem AddRoute_adds_once
    (name backendName address : string) (routes : list string) (g : registry) :
  Retrieve name g = inr backendName ->
  backends (fake g) !! backendName = Some routes ->
  (address ∈ routes -> AddRoute name address g = (g, Some ErrRouteExists)) /\
  (address ∉ routes -> failing (fake g) address = true ->
     AddRoute name address g = (g, Some ErrForcedFailure)) /\
  (address ∉ routes -> failing (fake g) address = false ->
     exists g',
       AddRoute name address g = (g', None) /\
       backends (fake g') !! backendName = Some (routes ++ [address]) /\
       HasRoute backendName address (fake g') = true /\
       AddRoute name address g' = (g', Some ErrRouteExists)).
Proof.
  intros Hret Hb.
  assert (Hhas : HasBackend backendName (fake g) = true)
    by (unfold HasBackend; now rewrite Hb).
  unfold AddRoute. rewrite Hret, Hhas. cbn [negb]. unfold HasRoute at 1 2 3. rewrite Hb.
  split; [|split].
  - intros Hin. apply hasAddress_true in Hin. now rewrite Hin.
  - intros Hnot Hfail. apply hasAddress_false in Hnot. now rewrite Hnot, Hfail.
  - intros Hnot Hfail. apply hasAddress_false in Hnot. rewrite Hnot, Hfail.
    eexists. split; [reflexivity|].
    assert (Hlast : hasAddress (routes ++ [address]) address = true)
      by (apply hasAddress_true, elem_of_app; right; left).
    unfold routesOf. rewrite Hb. simpl. rewrite lookup_insert_eq.
    split; [reflexivity|].
    unfold HasRoute, HasBackend, Retrieve in *. simpl. rewrite !lookup_insert_eq.
    split; [assumption|].
    destruct (resolution g !! name) as [b|]; [|discriminate].
    injection Hret as ->. rewrite !lookup_insert_eq. simpl. now rewrite Hlast.
Qed.

(** X4. [RemoveRoute] undoes [AddRoute]: for a name that resolves to a
    registered backend and an address that is neither among its routes nor
    flagged as failing, adding the route and removing it gives back the
    registry. *)
Theorem RemoveRoute_undoes_AddRoute
    (name backendName address : string) (routes : list string) (g : registry) :
  Retrieve name g = inr backendName ->
  backends (fake g) !! backendName = Some routes ->
  address ∉ routes ->
  failing (fake g) address = false ->
  RemoveRoute name address (fst (AddRoute name address g)) = (g, None).
Proof.
  intros Hret Hb Hnot Hfail.
  assert (Hhas : HasBackend backendName (fake g) = true)
    by (unfold HasBackend; now rewrite Hb).
  unfold AddRoute. rewrite Hret, Hhas. cbn [negb]. unfold HasRoute. rewrite Hb.
  pose proof Hnot as Hnot'. apply hasAddress_false in Hnot'. rewrite Hnot', Hfail.
  unfold RemoveRoute, Retrieve, HasBackend, routesOf in *. simpl.
  destruct (resolution g !! name) as [b|]; [|discriminate]. injection Hret as ->.
  rewrite Hb. simpl. rewrite !lookup_insert_eq. simpl.
  unfold failing in *. simpl. rewrite Hfail.
  rewrite (indexFrom_fresh_end 0 routes address Hnot). simpl.
  rewrite last_snoc. simpl.
  rewrite list_insert_id by (rewrite lookup_app_r, Nat.sub_diag by lia; reflexivity).
  rewrite length_app. simpl. replace (length routes + 1 - 1) with (length routes) by lia.
  rewrite take_app_length. f_equal.
  apply registry_eq; simpl; try reflexivity.
  rewrite insert_insert_eq. now apply insert_id.
Qed.

Lemma swap_with_last_Permutation (routes : list string) (index : nat) (address : string) :
  routes !! index = Some address ->
  routes ≡ₚ address ::
    take (length (<[index := default EmptyString (last routes)]> routes) - 1)
         (<[index := default EmptyString (last routes)]> routes).
Proof.
  intros Hat. rewrite length_insert.
  destruct (last routes) as [x|] eqn:Hlast.
  - apply last_Some in Hlast as [init ->]. simpl.
    rewrite length_app. simpl. replace (length init + 1 - 1) with (length init) by lia.
    destruct (decide (index < length init)) as [Hlt|Hge].
    + rewrite lookup_app_l in Hat by assumption.
      rewrite insert_app_l by assumption.
      rewrite take_app_length' by (now rewrite length_insert).
      rewrite insert_take_drop by assumption.
      rewrite <- (take_drop_middle init index address Hat) at 1.
      rewrite <- app_assoc. simpl.
      etransitivity; [symmetry; apply Permutation_middle|].
      apply perm_skip, Permutation_app_head. symmetry. apply Permutation_cons_append.
    + assert (index = length init).
      { apply lookup_lt_Some in Hat. rewrite length_app in Hat. simpl in Hat. lia. }
      subst index. rewrite lookup_app_r, Nat.sub_diag in Hat by lia.
      injection Hat as ->.
      rewrite list_insert_id by (rewrite lookup_app_r, Nat.sub_diag by lia; reflexivity).
      rewrite take_app_length. now rewrite <- Permutation_cons_append.
  - apply last_None in Hlast. subst routes. inversion Hat.
Qed.

(** X5. For a name that resolves to a registered backend and an address that
    is not flagged as failing, [RemoveRoute] of an address that is not among
    the routes returns [ErrRouteNotFound] and changes nothing; of an
    address among them it returns nil and leaves the routes without one
    occurrence of the address, every other route being kept, possibly in
    another order; when the routes had no duplicate, [HasRoute] no longer
    holds of the address. *)
Theorem RemoveRoute_removes_one
    (name backendName address : string) (routes : list string) (g : registry) :
  Retrieve name g = inr backendName ->
  backends (fake g) !! backendName = Some routes ->
  failing (fake g) address = false ->
  (address ∉ routes -> RemoveRoute name address g = (g, Some ErrRouteNotFound)) /\
  (address ∈ routes ->
     exists g' routes',
       RemoveRoute name address g = (g', None) /\
       backends (fake g') !! backendName = Some routes' /\
       routes ≡ₚ address :: routes' /\
       (NoDup routes -> HasRoute backendName address (fake g') = false)).
Proof.
  intros Hret Hb Hfail.
  assert (Hhas : HasBackend backendName (fake g) = true)
    by (unfold HasBackend; now rewrite Hb).
  assert (Hroutes : routesOf (fake g) backendName = routes)
    by (unfold routesOf; now rewrite Hb).
  unfold RemoveRoute. rewrite Hret, Hhas, Hfail, Hroutes. cbn [negb]. split.
  - intros Hnot. apply (indexFrom_None 0) in Hnot. now rewrite Hnot.
  - intros Hin. destruct (indexFrom 0 routes address) as [index|] eqn:Hidx.
    + apply indexFrom_bounds in Hidx as (_ & Hat & _). rewrite Nat.sub_0_r in Hat.
      eexists _, _. split; [reflexivity|]. simpl. rewrite lookup_insert_eq.
      split; [reflexivity|].
      pose proof (swap_with_last_Permutation routes index address Hat) as Hperm.
      split; [exact Hperm|].
      intros Hnd. unfold HasRoute. simpl. rewrite lookup_insert_eq.
      apply hasAddress_false. intros Hin'.
      rewrite Hperm in Hnd. apply NoDup_cons in Hnd as [Hnot _]. contradiction.
    + apply indexFrom_None in Hidx. contradiction.
Qed.

Lemma filter_keeps_all {A : Type} (P : A -> Prop) `{forall x, Decision (P x)} (l : list A) :
  (forall x, x ∈ l -> P x) -> filter P l = l.
Proof.
  induction l as [|x l IH]; intros Hall; [reflexivity|].
  rewrite filter_cons_True by (apply Hall; left). f_equal.
  apply IH. intros y Hy. apply Hall. now right.
Qed.

Lemma filter_drops_all {A : Type} (P : A -> Prop) `{forall x, Decision (P x)} (l : list A) :
  (forall x, x ∈ l -> ~ P x) -> filter P l = [].
Proof.
  induction l as [|x l IH]; intros Hall; [reflexivity|].
  rewrite filter_cons_False by (apply Hall; left).
  apply IH. intros y Hy. apply Hall. now right.
Qed.

Lemma remove_first_filter (routes : list string) (address : string) (i : nat) :
  NoDup routes -> indexFrom 0 routes address = Some i ->
  take i routes ++ drop (S i) routes = filter (fun r => r <> address) routes.
Proof.
  intros Hnd Hidx. apply indexFrom_bounds in Hidx as (_ & Hat & Hbefore).
  rewrite Nat.sub_0_r in Hat, Hbefore.
  rewrite <- (take_drop_middle routes i address Hat) at 3.
  rewrite <- (take_drop_middle routes i address Hat) in Hnd.
  apply NoDup_app in Hnd as (_ & _ & Hrest). apply NoDup_cons in Hrest as [Hafter _].
  rewrite filter_app, filter_cons_False by (intros Hne; now apply Hne).
  f_equal.
  - symmetry. apply filter_keeps_all. intros r Hr ->. contradiction.
  - symmetry. apply filter_keeps_all. intros r Hr ->. contradiction.
Qed.

Lemma removeAll_filter (addresses routes : list string) :
  NoDup routes ->
  removeAll routes addresses = filter (fun r => r ∉ addresses) routes.
Proof.
  revert routes. induction addresses as [|addr rest IH]; intros routes Hnd; simpl.
  - symmetry. apply filter_keeps_all. intros r _. apply not_elem_of_nil.
  - assert (Hsplit : filter (fun r => r ∉ addr :: rest) routes =
                     filter (fun r => r ∉ rest) (filter (fun r => r <> addr) routes)).
    { rewrite list_filter_filter. apply list_filter_iff. intros r.
      rewrite not_elem_of_cons. tauto. }
    rewrite Hsplit. destruct (indexFrom 0 routes addr) as [i|] eqn:Hidx.
    + rewrite <- (remove_first_filter routes addr i Hnd Hidx). apply IH.
      rewrite <- delete_take_drop. eapply sublist_NoDup; [exact Hnd | apply sublist_delete].
    + apply indexFrom_None in Hidx.
      rewrite (filter_keeps_all (fun r => r <> addr) routes)
        by (intros r Hr ->; contradiction).
      now apply IH.
Qed.

(** X6. For a name that resolves to a registered backend with duplicate-free
    routes and a batch with no failing address, [RemoveRoutes] returns nil
    and leaves exactly the routes that are not in the batch, in their
    order. *)
Theorem RemoveRoutes_keeps_the_others
    (name backendName : string) (routes addresses : list string) (g : registry) :
  Retrieve name g = inr backendName ->
  backends (fake g) !! backendName = Some routes ->
  NoDup routes ->
  anyFailing (fake g) addresses = false ->
  RemoveRoutes name addresses g =
    (with_fake (with_backends
                  (<[backendName := filter (fun r => r ∉ addresses) routes]>
                     (backends (fake g))) (fake g)) g, None).
Proof.
  intros Hret Hb Hnd Hany.
  assert (Hhas : HasBackend backendName (fake g) = true)
    by (unfold HasBackend; now rewrite Hb).
  assert (Hroutes : routesOf (fake g) backendName = routes)
    by (unfold routesOf; now rewrite Hb).
  unfold RemoveRoutes. rewrite Hret, Hhas, Hany, Hroutes. cbn [negb].
  now rewrite removeAll_filter.
Qed.

Lemma addAll_appends (addresses routes : list string) :
  exists added,
    addAll routes addresses = routes ++ added /\ NoDup added /\
    forall a, a ∈ added <-> a ∈ addresses /\ a ∉ routes.
Proof.
  revert routes. induction addresses as [|addr rest IH]; intros routes; simpl.
  - exists []. rewrite app_nil_r. split; [reflexivity|]. split; [constructor|].
    intros a. split; [intros Hin; inversion Hin | intros [Hin _]; inversion Hin].
  - destruct (hasAddress routes addr) eqn:Hhas.
    + apply hasAddress_true in Hhas.
      destruct (IH routes) as (added & Heq & Hnd & Hmem).
      exists added. split; [assumption|]. split; [assumption|].
      intros a. rewrite Hmem, elem_of_cons. split; [tauto|].
      intros [[->|Hin] Hnot]; [contradiction | tauto].
    + apply hasAddress_false in Hhas.
      destruct (IH (routes ++ [addr])) as (added & Heq & Hnd & Hmem).
      exists (addr :: added). split; [now rewrite Heq, <- app_assoc|].
      split.
      * apply NoDup_cons. split; [|assumption].
        intros Hin. apply Hmem in Hin as [_ Hnot]. apply Hnot, elem_of_app. right. left.
      * intros a. rewrite !elem_of_cons, Hmem, elem_of_app, list_elem_of_singleton.
        destruct (decide (a = addr)) as [->|Hne]; [tauto|]. tauto.
Qed.

(** X7. For a name that resolves to a registered backend and a batch with no
    failing address, [AddRoutes] returns nil and appends to the routes,
    which stay in their order, the addresses of the batch that were not
    among them, each once. *)
Theorem AddRoutes_appends_the_new
    (name backendName : string) (routes addresses : list string) (g : registry) :
  Retrieve name g = inr backendName ->
  backends (fake g) !! backendName = Some routes ->
  anyFailing (fake g) addresses = false ->
  exists added,
    AddRoutes name addresses g =
      (with_fake (with_backends (<[backendName := routes ++ added]> (backends (fake g)))
                    (fake g)) g, None) /\
    NoDup added /\
    forall a, a ∈ added <-> a ∈ addresses /\ a ∉ routes.
Proof.
  intros Hret Hb Hany.
  assert (Hhas : HasBackend backendName (fake g) = true)
    by (unfold HasBackend; now rewrite Hb).
  assert (Hroutes : routesOf (fake g) backendName = routes)
    by (unfold routesOf; now rewrite Hb).
  destruct (addAll_appends addresses routes) as (added & Heq & Hnd & Hmem).
  exists added. unfold AddRoutes. rewrite Hret, Hhas, Hany, Hroutes. cbn [negb].
  now rewrite Heq.
Qed.

(** X8. [RemoveRoutes] undoes [AddRoutes]: for a name that resolves to a
    registered backend with duplicate-free routes, and a batch of addresses
    that are neither among the routes nor flagged as failing, adding the
    batch and removing it gives back the registry. *)
Theorem RemoveRoutes_undoes_AddRoutes
    (name backendName : string) (routes addresses : list string) (g : registry) :
  Retrieve name g = inr backendName ->
  backends (fake g) !! backendName = Some routes ->
  NoDup routes ->
  (forall a, a ∈ addresses -> a ∉ routes) ->
  anyFailing (fake g) addresses = false ->
  RemoveRoutes name addresses (fst (AddRoutes name addresses g)) = (g, None).
Proof.
  intros Hret Hb Hnd Hfresh Hany.
  assert (Hhas : HasBackend backendName (fake g) = true)
    by (unfold HasBackend; now rewrite Hb).
  assert (Hroutes : routesOf (fake g) backendName = routes)
    by (unfold routesOf; now rewrite Hb).
  destruct (addAll_appends addresses routes) as (added & Heq & Hadded & Hmem).
  unfold AddRoutes. rewrite Hret, Hhas, Hany, Hroutes, Heq. cbn [negb fst].
  assert (Hnd' : NoDup (routes ++ added)).
  { apply NoDup_app. split; [assumption|]. split; [|assumption].
    intros a Ha Ha'. now apply Hmem in Ha' as [_ Hnot]. }
  set (g' := with_fake _ g).
  unfold RemoveRoutes. change (Retrieve name g') with (Retrieve name g). rewrite Hret.
  rewrite (anyFailing_ext (fake g') (fake g)) by reflexivity. rewrite Hany.
  unfold HasBackend, routesOf. subst g'. simpl. rewrite !lookup_insert_eq. simpl.
  rewrite removeAll_filter by assumption. f_equal. rewrite filter_app.
  rewrite (filter_keeps_all (fun r => r ∉ addresses) routes)
    by (intros r Hr Hin; now apply (Hfresh r)).
  rewrite (filter_drops_all (fun r => r ∉ addresses) added), app_nil_r.
  - apply registry_eq; simpl; try reflexivity.
    rewrite insert_insert_eq. now apply insert_id.
  - intros r Hr Hnot. apply Hmem in Hr as [Hin _]. contradiction.
Qed.

(** X9. A route or alias operation that returns an error leaves the
    registry as it was: [AddRoutes], [RemoveRoutes], [AddRoute],
    [RemoveRoute], [SetCName], [UnsetCName] and [SetHealthcheck] make all
    their checks before their first write. *)
Theorem route_and_alias_errors_change_nothing
    (name other : string) (addresses : list string) (data : HealthcheckData)
    (g g' : registry) (err : error) :
  (AddRoutes name addresses g = (g', Some err) -> g' = g) /\
  (RemoveRoutes name addresses g = (g', Some err) -> g' = g) /\
  (AddRoute name other g = (g', Some err) -> g' = g) /\
  (RemoveRoute name other g = (g', Some err) -> g' = g) /\
  (SetCName other name g = (g', Some err) -> g' = g) /\
  (UnsetCName other name g = (g', Some err) -> g' = g) /\
  (SetHealthcheck name data g = (g', Some err) -> g' = g).
Proof.
  unfold AddRoutes, RemoveRoutes, AddRoute, RemoveRoute, SetCName, UnsetCName,
    SetHealthcheck.
  destruct (Retrieve name g) as [e|backendName];
    [repeat split; now intros [= <- _]|].
  destruct (HasBackend backendName (fake g)); cbn [negb];
    [|repeat split; first [now intros [= <- _] | discriminate]].
  repeat split.
  - destruct (anyFailing (fake g) addresses); [now intros [= <- _] | discriminate].
  - destruct (anyFailing (fake g) addresses); [now intros [= <- _] | discriminate].
  - destruct (HasRoute backendName other (fake g)); [now intros [= <- _]|].
    destruct (failing (fake g) other); [now intros [= <- _] | discriminate].
  - destruct (failing (fake g) other); [now intros [= <- _]|].
    destruct (indexFrom 0 (routesOf (fake g) backendName) other);
      [discriminate | now intros [= <- _]].
  - destruct (ValidCName other "fakerouter.com"); cbn [negb]; [|now intros [= <- _]].
    destruct (cnames (fake g) !! other); [now intros [= <- _] | discriminate].
  - destruct (cnames (fake g) !! other); [discriminate | now intros [= <- _]].
  - discriminate.
Qed.

Lemma routes_NoDup_perform (c : call) (g : registry) :
  routes_NoDup g -> routes_NoDup (perform c g).
Proof.
  intros Hg. destruct c; simpl;
    [ now apply routes_NoDup_AddBackend | now apply routes_NoDup_RemoveBackend
    | now apply routes_NoDup_AddRoutes | now apply routes_NoDup_RemoveRoutes
    | now apply routes_NoDup_AddRoute | now apply routes_NoDup_RemoveRoute
    | now apply routes_NoDup_SetCName | now apply routes_NoDup_UnsetCName
    | now apply routes_NoDup_SetHealthcheck | exact Hg | exact Hg | ].
  intros name routes. simpl. now rewrite lookup_empty.
Qed.

(** X10. Whatever the name-resolution records, every registry built from
    the empty router by a sequence of calls has duplicate-free route
    lists. *)
Theorem built_registries_have_route_sets (calls : list call) (records : gmap string string) :
  routes_NoDup (performAll calls (mkRegistry newFakeRouter records)).
Proof.
  assert (Hall : forall g, routes_NoDup g -> routes_NoDup (performAll calls g)).
  { induction calls as [|c rest IH]; intros g Hg; simpl; [assumption|].
    now apply IH, routes_NoDup_perform. }
  apply Hall, routes_NoDup_new.
Qed.

Lemma aliases_registered_keep (g g' : registry) :
  cnames (fake g') = cnames (fake g) ->
  (forall backend, HasBackend backend (fake g) = true ->
     HasBackend backend (fake g') = true) ->
  aliases_registered g -> aliases_registered g'.
Proof.
  intros Hc Hb Hg cname backend Halias. rewrite Hc in Halias.
  now apply Hb, (Hg cname).
Qed.

Lemma HasBackend_store (g : registry) (name backend : string) (routes : list string) :
  HasBackend backend (fake g) = true ->
  HasBackend backend
    (fake (with_fake (with_backends (<[name := routes]> (backends (fake g))) (fake g)) g))
    = true.
Proof.
  unfold HasBackend. simpl. rewrite lookup_insert.
  now destruct (decide (name = backend)).
Qed.

Lemma aliases_registered_perform (c : call) (g : registry) :
  aliases_registered g -> aliases_registered (perform c g).
Proof.
  intros Hg. destruct c; simpl.
  - unfold AddBackend. destruct (HasBackend name (fake g)); [assumption|].
    apply (aliases_registered_keep g); [reflexivity | | assumption].
    intros backend. apply (HasBackend_store g name backend []).
  - unfold RemoveBackend. destruct (Retrieve name g) as [e|backendName]; [assumption|].
    destruct (String.eqb_spec backendName name) as [->|Hne]; cbn [negb]; [|assumption].
    destruct (HasBackend name (fake g)); cbn [negb]; [|assumption].
    intros cname backend. simpl. unfold purgeCNames. intros Halias.
    apply map_lookup_filter_Some in Halias as [Halias Hne]. simpl in Hne.
    specialize (Hg cname backend Halias). unfold HasBackend in *. simpl.
    now rewrite lookup_delete_ne by congruence.
  - unfold AddRoutes. destruct (Retrieve name g) as [e|backendName]; [assumption|].
    destruct (negb (HasBackend backendName (fake g))); [assumption|].
    destruct (anyFailing (fake g) addresses); [assumption|].
    apply (aliases_registered_keep g); [reflexivity | | assumption].
    intros backend. apply HasBackend_store.
  - unfold RemoveRoutes. destruct (Retrieve name g) as [e|backendName]; [assumption|].
    destruct (negb (HasBackend backendName (fake g))); [assumption|].
    destruct (anyFailing (fake g) addresses); [assumption|].
    apply (aliases_registered_keep g); [reflexivity | | assumption].
    intros backend. apply HasBackend_store.
  - unfold AddRoute. destruct (Retrieve name g) as [e|backendName]; [assumption|].
    destruct (negb (HasBackend backendName (fake g))); [assumption|].
    destruct (HasRoute backendName address (fake g)); [assumption|].
    destruct (failing (fake g) address); [assumption|].
    apply (aliases_registered_keep g); [reflexivity | | assumption].
    intros backend. apply HasBackend_store.
  - unfold RemoveRoute. destruct (Retrieve name g) as [e|backendName]; [assumption|].
    destruct (negb (HasBackend backendName (fake g))); [assumption|].
    destruct (failing (fake g) address); [assumption|].
    destruct (indexFrom 0 (routesOf (fake g) backendName) address); [|assumption].
    apply (aliases_registered_keep g); [reflexivity | | assumption].
    intros backend. apply HasBackend_store.
  - unfold SetCName. destruct (Retrieve name g) as [e|backendName]; [assumption|].
    destruct (HasBackend backendName (fake g)) eqn:Hhas; cbn [negb]; [|assumption].
    destruct (negb (ValidCName cname "fakerouter.com")); [assumption|].
    destruct (cnames (fake g) !! cname) eqn:Hc; [assumption|].
    intros alias backend. simpl. rewrite lookup_insert.
    destruct (decide (cname = alias)) as [->|Hne]; [now intros [= <-] | apply Hg].
  - unfold UnsetCName. destruct (Retrieve name g) as [e|backendName]; [assumption|].
    destruct (negb (HasBackend backendName (fake g))); [assumption|].
    destruct (cnames (fake g) !! cname) eqn:Hc; [|assumption].
    intros alias backend. simpl. intros Halias.
    apply lookup_delete_Some in Halias as [_ Halias]. now apply (Hg alias).
  - unfold SetHealthcheck. destruct (Retrieve name g) as [e|backendName]; assumption.
  - assumption.
  - assumption.
  - intros alias backend. simpl. now rewrite lookup_empty.
Qed.

(** X11. Whatever the name-resolution records, in every registry built from
    the empty router by a sequence of calls every alias points at a
    registered backend. *)
Theorem built_registries_have_no_dangling_alias
    (calls : list call) (records : gmap string string) :
  aliases_registered (performAll calls (mkRegistry newFakeRouter records)).
Proof.
  assert (Hall : forall g, aliases_registered g -> aliases_registered (performAll calls g)).
  { induction calls as [|c rest IH]; intros g Hg; simpl; [assumption|].
    now apply IH, aliases_registered_perform. }
  apply Hall. intros alias backend. simpl. now rewrite lookup_empty.
Qed.

(** X12. For a name that resolves to a registered backend and an alias that
    passes the validity check: [SetCName] of an alias that is taken returns
    [ErrCNameExists] and changes nothing; of a free alias it returns nil
    and binds the alias to the backend, [HasCName] holds of it, and
    [UnsetCName] of the alias then gives back the registry, whether it is
    called with the same name or with any other name that resolves to a
    registered backend: [UnsetCName] does not look at the backend the alias
    points at. *)
Theorem UnsetCName_undoes_SetCName (cname name backendName : string) (g : registry) :
  Retrieve name g = inr backendName ->
  HasBackend backendName (fake g) = true ->
  ValidCName cname "fakerouter.com" = true ->
  (forall taken, cnames (fake g) !! cname = Some taken ->
     SetCName cname name g = (g, Some ErrCNameExists)) /\
  (cnames (fake g) !! cname = None ->
     exists g',
       SetCName cname name g = (g', None) /\
       cnames (fake g') !! cname = Some backendName /\
       HasCName cname (fake g') = true /\
       forall other otherBackend,
         Retrieve other g = inr otherBackend ->
         HasBackend otherBackend (fake g) = true ->
         UnsetCName cname other g' = (g, None)).
Proof.
  intros Hret Hhas Hvalid. unfold SetCName. rewrite Hret, Hhas, Hvalid. cbn [negb]. split.
  - intros taken Hc. now rewrite Hc.
  - intros Hc. rewrite Hc. eexists. split; [reflexivity|].
    unfold HasCName. simpl. rewrite !lookup_insert_eq. repeat split.
    intros other otherBackend Hother Hreg.
    unfold UnsetCName. change (Retrieve other (with_fake _ g)) with (Retrieve other g).
    rewrite Hother. unfold HasBackend in *. simpl.
    destruct (backends (fake g) !! otherBackend); [|discriminate]. simpl.
    rewrite lookup_insert_eq. f_equal.
    apply registry_eq; simpl; try reflexivity. now apply delete_insert_id.
Qed.

(** X13. Once [SetCName] has bound to a registered backend a free alias
    that is not itself the name of a backend, [HasRoute] asked of the alias
    answers as [HasRoute] asked of the backend. *)
Theorem HasRoute_through_alias
    (cname name backendName address : string) (g : registry) :
  Retrieve name g = inr backendName ->
  HasBackend backendName (fake g) = true ->
  ValidCName cname "fakerouter.com" = true ->
  cnames (fake g) !! cname = None ->
  HasBackend cname (fake g) = false ->
  snd (SetCName cname name g) = None /\
  HasRoute cname address (fake (fst (SetCName cname name g))) =
    HasRoute backendName address (fake g).
Proof.
  intros Hret Hhas Hvalid Hfree Hnot.
  unfold SetCName. rewrite Hret, Hhas, Hvalid, Hfree. cbn [negb]. split; [reflexivity|].
  unfold HasRoute, HasBackend in *. simpl. rewrite lookup_insert_eq. simpl.
  destruct (backends (fake g) !! cname); [discriminate|].
  now destruct (backends (fake g) !! backendName).
Qed.

(** X14. [SetHealthcheck] needs a resolution record only: for a name that
    resolves to a backend, registered or not, it returns nil and stores the
    payload under the backend, where [GetHealthcheck] reads it back, the
    payload of every other backend, the backends and the aliases staying
    as they were; for a name with no record it returns the error of the
    resolution and stores nothing. *)
Theorem GetHealthcheck_after_SetHealthcheck
    (name : string) (data : HealthcheckData) (g : registry) :
  (forall backendName, Retrieve name g = inr backendName ->
     exists g',
       SetHealthcheck name data g = (g', None) /\
       GetHealthcheck backendName (fake g') = data /\
       (forall other, other <> backendName ->
          GetHealthcheck other (fake g') = GetHealthcheck other (fake g)) /\
       backends (fake g') = backends (fake g) /\
       cnames (fake g') = cnames (fake g)) /\
  (forall err, Retrieve name g = inl err -> SetHealthcheck name data g = (g, Some err)).
Proof.
  unfold SetHealthcheck. split.
  - intros backendName ->. eexists. split; [reflexivity|].
    unfold GetHealthcheck. simpl. rewrite lookup_insert_eq. repeat split.
    intros other Hne. now rewrite lookup_insert_ne by congruence.
  - now intros err ->.
Qed.

(** X30. [AddRoutes] is idempotent: for a name that resolves to a registered
    backend and a batch with no failing address, adding the batch a second
    time returns nil and changes nothing. *)
Theorem AddRoutes_twice
    (name backendName : string) (routes addresses : list string) (g : registry) :
  Retrieve name g = inr backendName ->
  backends (fake g) !! backendName = Some routes ->
  anyFailing (fake g) addresses = false ->
  AddRoutes name addresses (fst (AddRoutes name addresses g)) =
    (fst (AddRoutes name addresses g), None).
Proof.
  intros Hret Hb Hany.
  assert (Hhas : HasBackend backendName (fake g) = true)
    by (unfold HasBackend; now rewrite Hb).
  unfold AddRoutes at 2 3. rewrite Hret, Hhas, Hany. cbn [negb fst].
  set (g' := with_fake _ g).
  assert (Hb' : backends (fake g') !! backendName
                = Some (addAll (routesOf (fake g) backendName) addresses))
    by (subst g'; simpl; apply lookup_insert_eq).
  unfold AddRoutes. change (Retrieve name g') with (Retrieve name g). rewrite Hret.
  rewrite (anyFailing_ext (fake g') (fake g)) by reflexivity. rewrite Hany.
  assert (Hhas' : HasBackend backendName (fake g') = true)
    by (unfold HasBackend; now rewrite Hb').
  assert (Hroutes' : routesOf (fake g') backendName
                     = addAll (routesOf (fake g) backendName) addresses)
    by (unfold routesOf at 1; now rewrite Hb').
  rewrite Hhas', Hroutes'. cbn [negb].
  rewrite addAll_present by (intros a Ha; now apply addAll_adds).
  now rewrite store_routes_id.
Qed.

End FakeRouterMore.

(** * Further properties of the application aggregate *)

Section TeamsMore.

Lemma ascending_NoDup (teams : list string) : ascending teams -> NoDup teams.
Proof.
  intros Hasc. apply NoDup_alt. intros i j s Hi Hj.
  eapply ascending_lookup_inj; eassumption.
Qed.

Lemma ascending_delete (teams : list string) (index : nat) :
  ascending teams -> ascending (delete index teams).
Proof.
  intros Hasc i j s t Hij. rewrite !list_lookup_delete.
  destruct (decide (i < index)), (decide (j < index)); intros Hi Hj;
    (eapply Hasc; [|exact Hi|exact Hj]); lia.
Qed.

Lemma delete_at_filter (teams : list string) (index : nat) (t : string) :
  NoDup teams -> teams !! index = Some t ->
  delete index teams = filter (fun s => s <> t) teams.
Proof.
  intros Hnd Hat. rewrite delete_take_drop.
  rewrite <- (take_drop_middle teams index t Hat) at 3.
  rewrite <- (take_drop_middle teams index t Hat) in Hnd.
  apply NoDup_app in Hnd as (_ & Hbefore & Hrest). apply NoDup_cons in Hrest as [Hafter _].
  rewrite filter_app, filter_cons_False by (intros Hne; now apply Hne).
  f_equal; symmetry; apply filter_keeps_all; intros s Hs ->.
  - apply (Hbefore t Hs). left.
  - contradiction.
Qed.

(** X15. On teams sorted ascending with no duplicates, [Find] does not panic
    and returns the position at which the team stands or belongs: every
    team before the position is smaller, every team from the position on
    is not, and the team is reported as found exactly when it is among the
    teams, in which case it stands at the position. *)
Theorem Find_on_sorted_teams (team : auth.Team) (a : App) :
  ascending (Teams a) ->
  exists pos found,
    Find team a = Some (pos, found) /\ pos <= length (Teams a) /\
    (forall s, s ∈ take pos (Teams a) -> String.ltb s (auth.Name team) = true) /\
    (forall s, s ∈ drop pos (Teams a) -> String.leb (auth.Name team) s = true) /\
    (found = true <-> auth.Name team ∈ Teams a) /\
    (found = true -> Teams a !! pos = Some (auth.Name team)).
Proof.
  intros Hasc.
  destruct (Find_ascending team a Hasc)
    as (pos & found & Hfind & Hle & Hlow & Hhigh & Hfound).
  destruct (Find_total team a) as (pos' & found' & Hfind' & _ & Hat).
  rewrite Hfind in Hfind'. injection Hfind' as <- <-.
  exists pos, found. repeat split; try assumption.
  - intros s Hs. apply elem_of_take in Hs as (h & Hh & Hlt). now apply (Hlow h).
  - intros s Hs. apply list_elem_of_lookup in Hs as [h Hh]. rewrite lookup_drop in Hh.
    apply (Hhigh (pos + h)); [lia | assumption].
  - now apply Hfound.
  - now apply Hfound.
  - now apply Hat.
Qed.

(** X16. On teams sorted ascending with no duplicates, [Revoke] of a team
    that is not among them returns an error and changes nothing; of a team
    among them it returns nil and leaves the other teams, in their order:
    the list stays sorted and no longer holds the team.  Neither case
    panics. *)
Theorem Revoke_on_sorted_teams (team : auth.Team) (a : App) :
  ascending (Teams a) ->
  (auth.Name team ∉ Teams a ->
     Revoke team a =
       Some (a, Some (errors_New "This team does not have access to this app"))) /\
  (auth.Name team ∈ Teams a ->
     exists a',
       Revoke team a = Some (a', None) /\
       Teams a' = filter (fun s => s <> auth.Name team) (Teams a) /\
       ascending (Teams a') /\
       auth.Name team ∉ Teams a').
Proof.
  intros Hasc.
  destruct (Find_ascending team a Hasc)
    as (pos & found & Hfind & Hle & _ & _ & Hfound).
  destruct (Find_total team a) as (pos' & found' & Hfind' & _ & Hat).
  rewrite Hfind in Hfind'. injection Hfind' as <- <-.
  split.
  - intros Hnot. destruct found; [exfalso; now apply Hnot, Hfound|].
    unfold Revoke. now rewrite Hfind.
  - intros Hin. apply Hfound in Hin. subst found.
    rewrite (Revoke_outcome _ _ _ Hfind). eexists. split; [reflexivity|]. simpl.
    rewrite <- delete_take_drop.
    assert (Hpos : Teams a !! pos = Some (auth.Name team)) by now apply Hat.
    rewrite (delete_at_filter _ _ _ (ascending_NoDup _ Hasc) Hpos).
    split; [reflexivity|]. split.
    + rewrite <- (delete_at_filter _ _ _ (ascending_NoDup _ Hasc) Hpos).
      now apply ascending_delete.
    + intros Habs. apply list_elem_of_filter in Habs as [Hne _]. now apply Hne.
Qed.

(** X17. On teams sorted ascending with no duplicates, [Grant] of a team that
    is among them returns an error and changes nothing. *)
Theorem Grant_refuses_a_member (team : auth.Team) (a : App) :
  ascending (Teams a) ->
  auth.Name team ∈ Teams a ->
  Grant team a =
    Some (a, Some (errors_New "This team already has access to this app")).
Proof.
  intros Hasc Hin.
  destruct (Find_ascending team a Hasc)
    as (pos & found & Hfind & _ & _ & _ & Hfound).
  apply Hfound in Hin. subst found. unfold Grant. now rewrite Hfind.
Qed.

(** *** [SetTeams] *)

Lemma insertSorted_Permutation (s : string) (l : list string) :
  insertSorted s l ≡ₚ s :: l.
Proof.
  induction l as [|x rest IH]; simpl; [reflexivity|].
  destruct (String.leb s x); [reflexivity|].
  rewrite IH. apply Permutation_swap.
Qed.

Lemma sort_Strings_Permutation (l : list string) : sort_Strings l ≡ₚ l.
Proof.
  induction l as [|s rest IH]; simpl; [reflexivity|].
  now rewrite insertSorted_Permutation, IH.
Qed.

Lemma insertSorted_sorted (s : string) (l : list string) :
  StronglySorted (fun x y => String.leb x y = true) l ->
  StronglySorted (fun x y => String.leb x y = true) (insertSorted s l).
Proof.
  induction l as [|x rest IH]; intros Hl; simpl.
  - repeat constructor.
  - inversion Hl as [|? ? Hrest Hall]; subst.
    destruct (String.leb s x) eqn:Hsx.
    + constructor; [assumption|]. constructor; [assumption|].
      eapply Forall_impl; [exact Hall|]. intros y Hxy. simpl in *.
      now apply (String_leb_trans s x y).
    + constructor; [now apply IH|].
      apply Forall_forall. intros y Hy.
      rewrite insertSorted_Permutation in Hy. apply elem_of_cons in Hy as [->|Hy].
      * destruct (String.leb_total s x) as [Habs|Hxs]; [congruence | assumption].
      * rewrite Forall_forall in Hall. now apply Hall.
Qed.

Lemma sort_Strings_sorted (l : list string) :
  StronglySorted (fun x y => String.leb x y = true) (sort_Strings l).
Proof.
  induction l as [|s rest IH]; simpl; [constructor | now apply insertSorted_sorted].
Qed.

Lemma StronglySorted_lookup (R : string -> string -> Prop) (l : list string)
    (i j : nat) (x y : string) :
  StronglySorted R l -> i < j -> l !! i = Some x -> l !! j = Some y -> R x y.
Proof.
  intros Hl. revert i j. induction Hl as [|z l Hl IH Hall]; intros i j Hij Hi Hj;
    [inversion Hi|].
  destruct j as [|j]; [lia|]. destruct i as [|i]; simpl in *.
  - injection Hi as ->. rewrite Forall_forall in Hall. apply Hall.
    eapply list_elem_of_lookup_2; eassumption.
  - apply (IH i j); [lia | assumption | assumption].
Qed.

End TeamsMore.

Section SetTeamsFacts.
Context `{AppPkg}.

(** X18. [SetTeams] stores the names of the teams, each as often as it was
    given, in increasing order; when the names are pairwise distinct the
    stored list is sorted ascending with no duplicates, and [Find] then
    reports a team as found exactly when it was among the teams given. *)
Theorem SetTeams_sorts (teams : list auth.Team) (a : App) :
  Teams (SetTeams teams a) ≡ₚ map auth.Name teams /\
  (forall i j s t, i < j -> Teams (SetTeams teams a) !! i = Some s ->
     Teams (SetTeams teams a) !! j = Some t -> String.leb s t = true) /\
  (NoDup (map auth.Name teams) ->
     ascending (Teams (SetTeams teams a)) /\
     forall team, exists pos found,
       Find team (SetTeams teams a) = Some (pos, found) /\
       (found = true <-> auth.Name team ∈ map auth.Name teams)).
Proof.
  assert (Hperm : Teams (SetTeams teams a) ≡ₚ map auth.Name teams)
    by apply sort_Strings_Permutation.
  assert (Hsorted : forall i j s t, i < j -> Teams (SetTeams teams a) !! i = Some s ->
            Teams (SetTeams teams a) !! j = Some t -> String.leb s t = true).
  { intros i j s t Hij Hi Hj.
    apply (StronglySorted_lookup _ _ i j s t (sort_Strings_sorted _) Hij Hi Hj). }
  split; [exact Hperm|]. split; [exact Hsorted|].
  intros Hnd.
  assert (Hasc : ascending (Teams (SetTeams teams a))).
  { intros i j s t Hij Hi Hj. apply String_leb_neq_ltb; [now apply (Hsorted i j)|].
    intros ->. rewrite <- Hperm in Hnd.
    assert (i = j) by (eapply NoDup_lookup; eassumption). lia. }
  split; [exact Hasc|]. intros team.
  destruct (Find_ascending team (SetTeams teams a) Hasc)
    as (pos & found & Hfind & _ & _ & _ & Hfound).
  exists pos, found. split; [assumption|]. now rewrite <- Hperm.
Qed.

End SetTeamsFacts.

Section EnvironmentMore.
Context `{AppPkg}.

Lemma fst_UnsetEnvsFromApp (names : list string) (publicOnly useQueue : bool) (app : App) :
  fst (UnsetEnvsFromApp names publicOnly useQueue app) = unsetEnvs names publicOnly app.
Proof.
  unfold UnsetEnvsFromApp. destruct names as [|name rest]; [reflexivity|].
  cbn [length Nat.ltb Nat.leb]. now destruct (db_Update _).
Qed.

Lemma unsetEnvs_other (names : list string) (publicOnly : bool) (app : App) (n : string) :
  n ∉ names -> Env (unsetEnvs names publicOnly app) !! n = Env app !! n.
Proof.
  revert app. induction names as [|name rest IH]; intros app Hnot; simpl; [reflexivity|].
  apply not_elem_of_cons in Hnot as [Hne Hnot]. rewrite IH by assumption.
  match goal with |- context [if ?b then _ else _] => destruct b end; [|reflexivity].
  simpl. now apply lookup_delete_ne.
Qed.

Lemma unsetEnvs_gone (names : list string) (publicOnly : bool) (app : App) (n : string) :
  Env app !! n = None -> Env (unsetEnvs names publicOnly app) !! n = None.
Proof.
  revert app. induction names as [|name rest IH]; intros app Hnone; simpl; [assumption|].
  apply IH.
  match goal with |- context [if ?b then _ else _] => destruct b end; [|assumption].
  simpl. rewrite lookup_delete. now destruct (decide (name = n)).
Qed.

Lemma unsetEnvs_kept (names : list string) (app : App) (n : string) (e : bind.EnvVar) :
  Env app !! n = Some e -> bind.Public e = false ->
  Env (unsetEnvs names true app) !! n = Some e.
Proof.
  revert app. induction names as [|name rest IH]; intros app He Hp; simpl; [assumption|].
  apply IH; [|assumption]. unfold getEnv.
  destruct (Env app !! name) as [e'|] eqn:He'; simpl; [|assumption].
  destruct (bind.Public e') eqn:Hp'; [|assumption].
  simpl. rewrite lookup_delete_ne; [assumption|]. congruence.
Qed.

Lemma unsetEnvs_removed (names : list string) (publicOnly : bool) (app : App) (n : string) :
  n ∈ names ->
  (publicOnly = true -> forall e, Env app !! n = Some e -> bind.Public e = true) ->
  Env (unsetEnvs names publicOnly app) !! n = None.
Proof.
  revert app. induction names as [|name rest IH]; intros app Hin Hpub; [inversion Hin|].
  simpl. destruct (decide (name = n)) as [->|Hne].
  - apply unsetEnvs_gone. unfold getEnv.
    destruct (Env app !! n) as [e|] eqn:He.
    + destruct publicOnly; simpl; [|apply lookup_delete_eq].
      rewrite (Hpub eq_refl e eq_refl). simpl. apply lookup_delete_eq.
    + destruct publicOnly; simpl; [exact He | apply lookup_delete_eq].
  - apply elem_of_cons in Hin as [->|Hin]; [congruence|].
    apply IH; [assumption|]. intros Hp e.
    match goal with |- context [if ?b then _ else _] => destruct b end;
      [simpl; rewrite lookup_delete_ne by assumption|]; now apply Hpub.
Qed.

(** X19. [UnsetEnvsFromApp] without [publicOnly] removes every variable it
    names; with [publicOnly] it removes the named variables that are public
    and leaves every non-public variable as it is; a name that is not in
    the list keeps its binding; naming a variable that does not exist is
    no error: the error returned is the one of the update of the record,
    and nil for an empty list of names; and the outcome does not depend on
    [useQueue]. *)
Theorem UnsetEnvsFromApp_public_only
    (names : list string) (useQueue : bool) (app : App) :
  (forall n, n ∈ names ->
     Env (fst (UnsetEnvsFromApp names false useQueue app)) !! n = None) /\
  (forall n, n ∈ names ->
     (forall e, Env app !! n = Some e -> bind.Public e = true) ->
     Env (fst (UnsetEnvsFromApp names true useQueue app)) !! n = None) /\
  (forall n e, Env app !! n = Some e -> bind.Public e = false ->
     Env (fst (UnsetEnvsFromApp names true useQueue app)) !! n = Some e) /\
  (forall publicOnly n, n ∉ names ->
     Env (fst (UnsetEnvsFromApp names publicOnly useQueue app)) !! n = Env app !! n) /\
  (forall publicOnly,
     snd (UnsetEnvsFromApp names publicOnly useQueue app) =
       match names with
       | [] => None
       | _ :: _ => db_Update (fst (UnsetEnvsFromApp names publicOnly useQueue app))
       end) /\
  (forall publicOnly,
     UnsetEnvsFromApp names publicOnly useQueue app =
     UnsetEnvsFromApp names publicOnly (negb useQueue) app).
Proof.
  split; [|split; [|split; [|split; [|split]]]]; [| | | | |reflexivity].
  - intros n Hin. rewrite fst_UnsetEnvsFromApp.
    apply unsetEnvs_removed; [assumption | discriminate].
  - intros n Hin Hpub. rewrite fst_UnsetEnvsFromApp.
    apply unsetEnvs_removed; [assumption | intros _; exact Hpub].
  - intros n e He Hp. rewrite fst_UnsetEnvsFromApp. now apply unsetEnvs_kept.
  - intros publicOnly n Hnot. rewrite fst_UnsetEnvsFromApp. now apply unsetEnvs_other.
  - intros publicOnly. unfold UnsetEnvsFromApp.
    destruct names as [|name rest]; [reflexivity|].
    change (0 <? length (name :: rest))%nat with true. cbv iota zeta.
    destruct (db_Update (unsetEnvs (name :: rest) publicOnly app)) as [err|] eqn:Hdb;
      cbn [fst snd]; now rewrite Hdb.
Qed.

(** X20. [UnsetEnvsFromApp] undoes [SetEnvsToApp]: when no variable of the
    batch bears a name that the environment binds, setting the batch and
    then unsetting its names without [publicOnly] gives back the
    environment. *)
Theorem UnsetEnvsFromApp_undoes_SetEnvsToApp
    (envs : list bind.EnvVar) (publicOnly useQueue useQueue' : bool) (app : App) :
  (forall v, v ∈ envs -> Env app !! bind.Name v = None) ->
  Env (fst (UnsetEnvsFromApp (map bind.Name envs) false useQueue'
              (fst (SetEnvsToApp envs publicOnly useQueue app)))) = Env app.
Proof.
  intros Hfresh. apply map_eq. intros n.
  rewrite fst_UnsetEnvsFromApp, fst_SetEnvsToApp.
  destruct (decide (n ∈ map bind.Name envs)) as [Hin|Hnot].
  - rewrite unsetEnvs_removed by (assumption || discriminate).
    apply list_elem_of_fmap in Hin as (v & -> & Hv). symmetry. now apply Hfresh.
  - rewrite unsetEnvs_other by assumption. apply setEnvs_other.
    intros u Hu Heq. apply Hnot. apply list_elem_of_fmap. now exists u.
Qed.

(** X21. Under [publicOnly] a new non-public variable can be stored and
    cannot be removed: for a variable marked non-public whose name the
    environment does not bind, [SetEnvsToApp] with [publicOnly] stores it,
    and [UnsetEnvsFromApp] with [publicOnly] then leaves it in place. *)
Theorem publicOnly_stores_what_it_cannot_remove
    (v : bind.EnvVar) (useQueue useQueue' : bool) (app : App) :
  bind.Public v = false ->
  Env app !! bind.Name v = None ->
  Env (fst (SetEnvsToApp [v] true useQueue app)) !! bind.Name v = Some v /\
  Env (fst (UnsetEnvsFromApp [bind.Name v] true useQueue'
              (fst (SetEnvsToApp [v] true useQueue app)))) !! bind.Name v = Some v.
Proof.
  intros Hprivate Hfresh.
  assert (Hset : Env (fst (SetEnvsToApp [v] true useQueue app)) !! bind.Name v = Some v).
  { rewrite fst_SetEnvsToApp, setEnvs_one, Hfresh. apply lookup_insert_eq. }
  split; [exact Hset|].
  rewrite fst_UnsetEnvsFromApp. now apply unsetEnvs_kept.
Qed.

(** *** Logs *)

Lemma splitLines_no_newline (message line : string) :
  line ∈ splitLines message -> "010"%char ∉ list_ascii_of_string line.
Proof.
  revert line. induction message as [|c rest IH]; intros line; simpl.
  - intros Hin. apply list_elem_of_singleton in Hin. subst line. apply not_elem_of_nil.
  - destruct (Ascii.eqb_spec c "010"%char) as [->|Hne].
    + intros Hin. apply elem_of_cons in Hin as [->|Hin]; [apply not_elem_of_nil|].
      now apply IH.
    + destruct (splitLines rest) as [|first others] eqn:Hsplit.
      * intros Hin. apply list_elem_of_singleton in Hin. subst line. simpl.
        rewrite not_elem_of_cons. split; [congruence | apply not_elem_of_nil].
      * intros Hin. apply elem_of_cons in Hin as [->|Hin].
        -- simpl. rewrite not_elem_of_cons. split; [congruence|]. apply IH. left.
        -- apply IH. now right.
Qed.

Lemma appendLogs_spec (messages : list string) (logs : list Applog) (source : string) :
  appendLogs logs messages source =
    logs ++ map (fun msg => mkApplog time_Now msg source)
              (filter (fun msg => 0 < String.length (FilterOutput msg)) messages).
Proof.
  revert logs. induction messages as [|msg rest IH]; intros logs; simpl.
  - now rewrite app_nil_r.
  - rewrite filter_cons.
    destruct (Nat.ltb_spec 0 (String.length (FilterOutput msg))) as [Hlt|Hge].
    + rewrite decide_True by assumption. rewrite IH, <- app_assoc. reflexivity.
    + rewrite decide_False by lia. apply IH.
Qed.

(** X22. [Log] keeps the entries that are there and appends one entry for
    every line of the message that filtering leaves non-empty, in the
    order of the lines, each with the given source; no appended message
    holds a line break; the environment, the teams, the units and the
    hooks are left as they were, and the error returned is the one of the
    update of the record. *)
Theorem Log_appends_lines (message source : string) (a : App) :
  exists added,
    Logs (fst (Log message source a)) = Logs a ++ added /\
    map Message added =
      filter (fun msg => 0 < String.length (FilterOutput msg)) (splitLines message) /\
    (forall entry, entry ∈ added ->
       Source entry = source /\ "010"%char ∉ list_ascii_of_string (Message entry)) /\
    Env (fst (Log message source a)) = Env a /\
    Teams (fst (Log message source a)) = Teams a /\
    Units (fst (Log message source a)) = Units a /\
    hooks (fst (Log message source a)) = hooks a /\
    snd (Log message source a) = db_Update (fst (Log message source a)).
Proof.
  eexists. split; [apply appendLogs_spec|]. split; [|split].
  - rewrite map_map. simpl. apply map_id.
  - intros entry Hin. apply list_elem_of_fmap in Hin as (msg & -> & Hmsg). simpl.
    split; [reflexivity|]. apply list_elem_of_filter in Hmsg as [_ Hmsg].
    now apply splitLines_no_newline with (message := message).
  - repeat split.
Qed.

(** *** Hooks *)

(** X23. [loadHooks] loads at most once, whatever the first attempt gave:
    after a call the hooks are set, also when the call returned the error
    of [repository.GetPath] or of the parser, and the next call returns nil
    without changing the application. *)
Theorem loadHooks_is_not_retried (a : App) :
  hooks (fst (loadHooks a)) <> None /\
  loadHooks (fst (loadHooks a)) = (fst (loadHooks a), None).
Proof.
  assert (Hset : exists c, hooks (fst (loadHooks a)) = Some c).
  { unfold loadHooks. destruct (hooks a) as [c|] eqn:Hc; [exists c; exact Hc|].
    destruct GetPath as [err|uRepo]; [now eexists|].
    destruct (Command _ _ _) as [buf [err|]]; [now eexists|].
    destruct (Unmarshal _ _) as [parsed [err|]]; now eexists. }
  destruct Hset as [c Hc]. split; [now rewrite Hc|].
  now apply loadHooks_cached with (c := c).
Qed.

(** *** Units *)

Lemma getUnitsLoop_spec (units : list Unit) (u : nat) (store : gmap nat Unit)
    (result : list nat) :
  getUnitsLoop units u store result =
    (result ++ replicate (length units) u,
     match last units with Some unit => <[u := unit]> store | None => store end).
Proof.
  revert store result. induction units as [|unit rest IH]; intros store result; simpl.
  - now rewrite app_nil_r.
  - rewrite IH, <- app_assoc, last_cons. simpl. f_equal.
    destruct (last rest); [apply insert_insert_eq | reflexivity].
Qed.

(** X24. [GetUnits] returns as many pointers as the application has units,
    and they are all the address of the one loop variable: read after the
    call, every one of them holds the last unit of the application.  What
    the store held before is left as it was. *)
Theorem GetUnits_points_at_the_last_unit (a : App) (store : gmap nat Unit) :
  length (fst (GetUnits a store)) = length (Units a) /\
  (forall pointer, pointer ∈ fst (GetUnits a store) ->
     snd (GetUnits a store) !! pointer = last (Units a)) /\
  (forall address unit, store !! address = Some unit ->
     snd (GetUnits a store) !! address = Some unit).
Proof.
  unfold GetUnits. rewrite getUnitsLoop_spec. simpl.
  assert (Hfresh : store !! fresh (dom store) = None)
    by (apply not_elem_of_dom, is_fresh).
  split; [apply length_replicate|]. split.
  - intros pointer Hin. apply elem_of_replicate in Hin as [-> Hlen].
    destruct (last (Units a)) as [unit|] eqn:Hlast; [apply lookup_insert_eq|].
    apply last_None in Hlast. rewrite Hlast in Hlen. now simpl in Hlen.
  - intros address unit Hat. destruct (last (Units a)); [|assumption].
    rewrite lookup_insert_ne; [assumption|]. congruence.
Qed.

End EnvironmentMore.

Section HooksFacts.
Context `{AppPkg} `{HookPkg}.






(** X27. [Restart] does not go on when the hooks fail to load: if
    [loadHooks], called after the log entry is added, returns an error,
    [Restart] returns that error, with the writer as it was given and the
    application as [loadHooks] left it. *)
Theorem Restart_stops_when_hooks_fail_to_load (a : App) (w : Writer) (err : error) :
  snd (loadHooks (fst (Log "executing hook to restart" "tsuru" a))) = Some err ->
  Restart a w =
    Some (fst (loadHooks (fst (Log "executing hook to restart" "tsuru" a))), w, Some err).
Proof.
  intros Hload. unfold Restart, preRestart.
  destruct (loadHooks (fst (Log "executing hook to restart" "tsuru" a))) as [a1 e].
  simpl in Hload. now subst e.
Qed.

End HooksFacts.

(** * The further properties on the sample states *)

Lemma sample_teams_ascending : ascending ["a"; "c"; "d"].
Proof.
  intros i j s t Hij Hi Hj.
  destruct i as [|[|[|i]]]; destruct j as [|[|[|j]]]; simpl in Hi, Hj;
    try lia; try discriminate;
    injection Hi as <-; injection Hj as <-; reflexivity.
Qed.

Lemma RemoveBackend_undoes_AddBackend_on_sample :
  RemoveBackend "green" (fst (AddBackend "green" sampleRegistry)) = (sampleRegistry, None).
Proof.
  apply (@RemoveBackend_undoes_AddBackend sampleRouterPkg "green" sampleRegistry).
  - reflexivity.
  - reflexivity.
  - intros cname Halias. revert Halias. simpl.
    destruct (decide (cname = "myapp.example.com")) as [->|Hne].
    + discriminate.
    + rewrite lookup_singleton_ne by congruence. discriminate.
Defined.

Lemma AddRoute_on_sample :
  AddRoute "myapp" "http://10.10.10.10:8080" sampleRegistry
    = (sampleRegistry, Some ErrRouteExists) /\
  AddRoute "myapp" "http://10.10.10.11:8080" sampleRegistry
    = (sampleRegistry, Some ErrForcedFailure) /\
  snd (AddRoute "myapp" "http://10.10.10.12:8080" sampleRegistry) = None.
Proof.
  pose proof (fun address =>
    @AddRoute_adds_once sampleRouterPkg "myapp" "myapp" address
      ["http://10.10.10.10:8080"] sampleRegistry eq_refl eq_refl) as Hadd.
  split; [|split].
  - apply (proj1 (Hadd _)). left.
  - apply (proj1 (proj2 (Hadd _))); [not_among | reflexivity].
  - destruct (proj2 (proj2 (Hadd "http://10.10.10.12:8080"))) as (g' & -> & _);
      [not_among | reflexivity | reflexivity].
Defined.

Lemma RemoveRoute_undoes_AddRoute_on_sample :
  RemoveRoute "myapp" "http://10.10.10.12:8080"
    (fst (AddRoute "myapp" "http://10.10.10.12:8080" sampleRegistry))
  = (sampleRegistry, None).
Proof.
  apply (@RemoveRoute_undoes_AddRoute sampleRouterPkg "myapp" "myapp"
           "http://10.10.10.12:8080" ["http://10.10.10.10:8080"]);
    [reflexivity | reflexivity | not_among | reflexivity].
Defined.

Lemma RemoveRoute_on_sample :
  RemoveRoute "myapp" "http://10.10.10.12:8080" sampleRegistry
    = (sampleRegistry, Some ErrRouteNotFound) /\
  snd (RemoveRoute "myapp" "http://10.10.10.10:8080" sampleRegistry) = None.
Proof.
  pose proof (fun address =>
    @RemoveRoute_removes_one sampleRouterPkg "myapp" "myapp" address
      ["http://10.10.10.10:8080"] sampleRegistry eq_refl eq_refl) as Hremove.
  split.
  - apply (proj1 (Hremove "http://10.10.10.12:8080" eq_refl)). not_among.
  - destruct (proj2 (Hremove "http://10.10.10.10:8080" eq_refl)) as (g' & routes' & -> & _);
      [left | reflexivity].
Defined.

Lemma RemoveRoutes_on_sample :
  backends (fake (fst (RemoveRoutes "myapp"
     ["http://10.10.10.12:8080"; "http://10.10.10.10:8080"] sampleRegistry))) !! "myapp"
  = Some [].
Proof.
  rewrite (@RemoveRoutes_keeps_the_others sampleRouterPkg "myapp" "myapp"
             ["http://10.10.10.10:8080"]
             ["http://10.10.10.12:8080"; "http://10.10.10.10:8080"] sampleRegistry);
    [reflexivity | reflexivity | reflexivity | apply NoDup_singleton | reflexivity].
Defined.

Lemma AddRoutes_on_sample :
  exists added,
    backends (fake (fst (AddRoutes "myapp"
       ["http://10.10.10.12:8080"; "http://10.10.10.10:8080"; "http://10.10.10.12:8080"]
       sampleRegistry))) !! "myapp"
    = Some (["http://10.10.10.10:8080"] ++ added) /\
    NoDup added.
Proof.
  destruct (@AddRoutes_appends_the_new sampleRouterPkg "myapp" "myapp"
              ["http://10.10.10.10:8080"]
              ["http://10.10.10.12:8080"; "http://10.10.10.10:8080"; "http://10.10.10.12:8080"]
              sampleRegistry eq_refl eq_refl eq_refl) as (added & Heq & Hnd & _).
  exists added. rewrite Heq. split; [reflexivity | exact Hnd].
Defined.

Lemma RemoveRoutes_undoes_AddRoutes_on_sample :
  RemoveRoutes "myapp" ["http://10.10.10.12:8080"; "http://10.10.10.13:8080"]
    (fst (AddRoutes "myapp" ["http://10.10.10.12:8080"; "http://10.10.10.13:8080"]
            sampleRegistry))
  = (sampleRegistry, None).
Proof.
  apply (@RemoveRoutes_undoes_AddRoutes sampleRouterPkg "myapp" "myapp"
           ["http://10.10.10.10:8080"]);
    [reflexivity | reflexivity | apply NoDup_singleton | | reflexivity].
  intros a Ha. repeat (apply elem_of_cons in Ha as [->|Ha]; [not_among|]). inversion Ha.
Defined.

Lemma UnsetCName_undoes_SetCName_on_sample :
  SetCName "myapp.example.com" "myapp" sampleRegistry
    = (sampleRegistry, Some ErrCNameExists) /\
  UnsetCName "www.example.com" "myapp"
    (fst (SetCName "www.example.com" "myapp" sampleRegistry))
  = (sampleRegistry, None).
Proof.
  pose proof (fun cname =>
    @UnsetCName_undoes_SetCName sampleRouterPkg cname "myapp" "myapp" sampleRegistry
      eq_refl eq_refl) as Halias.
  split.
  - apply (proj1 (Halias "myapp.example.com" eq_refl) "myapp"). reflexivity.
  - destruct (proj2 (Halias "www.example.com" eq_refl) eq_refl)
      as (g' & Hset & _ & _ & Hunset).
    rewrite Hset. apply (Hunset "myapp" "myapp"); reflexivity.
Defined.

Lemma HasRoute_through_alias_on_sample :
  HasRoute "www.example.com" "http://10.10.10.10:8080"
    (fake (fst (SetCName "www.example.com" "myapp" sampleRegistry))) = true.
Proof.
  destruct (@HasRoute_through_alias sampleRouterPkg "www.example.com" "myapp" "myapp"
              "http://10.10.10.10:8080" sampleRegistry
              eq_refl eq_refl eq_refl eq_refl eq_refl) as [_ Hsame].
  rewrite Hsame. reflexivity.
Defined.

Lemma Find_on_sample :
  exists pos found,
    Find (auth.mkTeam "b") (sampleApp "myapp") = Some (pos, found) /\
    pos <= 3 /\ (found = true <-> "b" ∈ ["a"; "c"; "d"]).
Proof.
  destruct (Find_on_sorted_teams (auth.mkTeam "b") (sampleApp "myapp")
              sample_teams_ascending) as (pos & found & Hfind & Hle & _ & _ & Hfound & _).
  exists pos, found. repeat split; [exact Hfind | exact Hle | apply Hfound | apply Hfound].
Defined.

Lemma Revoke_on_sample :
  Revoke (auth.mkTeam "b") (sampleApp "myapp")
    = Some (sampleApp "myapp",
            Some (errors_New "This team does not have access to this app")) /\
  exists a', Revoke (auth.mkTeam "c") (sampleApp "myapp") = Some (a', None) /\
             Teams a' = ["a"; "d"].
Proof.
  pose proof (fun team =>
    Revoke_on_sorted_teams team (sampleApp "myapp") sample_teams_ascending) as Hrevoke.
  split.
  - apply (proj1 (Hrevoke (auth.mkTeam "b"))). simpl. not_among.
  - destruct (proj2 (Hrevoke (auth.mkTeam "c"))) as (a' & Heq & Hteams & _).
    + simpl. right. left.
    + exists a'. split; [exact Heq|]. rewrite Hteams. reflexivity.
Defined.

Lemma Grant_refuses_on_sample :
  Grant (auth.mkTeam "c") (sampleApp "myapp")
    = Some (sampleApp "myapp", Some (errors_New "This team already has access to this app")).
Proof.
  apply (Grant_refuses_a_member (auth.mkTeam "c") (sampleApp "myapp")
           sample_teams_ascending).
  simpl. right. left.
Defined.

Lemma Grant_Revoke_near_end_on_sample :
  exists a',
    Grant (auth.mkTeam "cc") (sampleApp "myapp") = Some (a', None) /\
    Teams a' = ["a"; "c"; "cc"; "d"] /\
    Revoke (auth.mkTeam "cc") a' = Some (with_Teams ["a"; "c"; "d"] a', None).
Proof.
  destruct (Grant_Revoke_near_end (auth.mkTeam "cc") (sampleApp "myapp") 2
              sample_teams_ascending) as (a' & Hgrant & Hteams & _ & Hrevoke);
    [simpl; not_among | reflexivity | simpl; lia |].
  exists a'. split; [exact Hgrant|]. split; [exact Hteams | exact Hrevoke].
Defined.

Lemma Grant_loses_on_sample :
  exists a',
    Grant (auth.mkTeam "b") (sampleApp "myapp") = Some (a', None) /\ "d" ∉ Teams a'.
Proof.
  destruct (Grant_loses_last_team (auth.mkTeam "b") (sampleApp "myapp") 1 "d"
              sample_teams_ascending) as (a' & Hgrant & _ & Hlost);
    [simpl; not_among | reflexivity | simpl; lia | reflexivity |].
  exists a'. split; [exact Hgrant | exact Hlost].
Defined.

Lemma UnsetEnvs_undoes_SetEnvs_on_sample :
  Env (fst (@UnsetEnvsFromApp sampleAppPkg ["DATABASE_HOST"; "DATABASE_USER"] false false
              (fst (@SetEnvsToApp sampleAppPkg
                      [bind.mkEnvVar "DATABASE_HOST" "localhost" false "mysql";
                       bind.mkEnvVar "DATABASE_USER" "root" true "mysql"]
                      true false (sampleApp "myapp")))))
  = Env (sampleApp "myapp").
Proof.
  apply (@UnsetEnvsFromApp_undoes_SetEnvsToApp sampleAppPkg
           [bind.mkEnvVar "DATABASE_HOST" "localhost" false "mysql";
            bind.mkEnvVar "DATABASE_USER" "root" true "mysql"]
           true false false (sampleApp "myapp")).
  intros v Hv. reflexivity.
Defined.

Lemma publicOnly_on_sample :
  let v := bind.mkEnvVar "DATABASE_HOST" "localhost" false "mysql" in
  Env (fst (@UnsetEnvsFromApp sampleAppPkg ["DATABASE_HOST"] true false
              (fst (@SetEnvsToApp sampleAppPkg [v] true false (sampleApp "myapp")))))
    !! "DATABASE_HOST" = Some v.
Proof.
  exact (proj2 (@publicOnly_stores_what_it_cannot_remove sampleAppPkg
                  (bind.mkEnvVar "DATABASE_HOST" "localhost" false "mysql")
                  false false (sampleApp "myapp") eq_refl eq_refl)).
Defined.

Lemma Restart_on_sample :
  exists a',
    @Restart sampleAppPkg sampleHookPkg (sampleApp "myapp") []
      = Some (a', [], Some (ErrCollaborator "yaml: did not find expected node")).
Proof.
  eexists.
  apply (@Restart_stops_when_hooks_fail_to_load sampleAppPkg sampleHookPkg
           (sampleApp "myapp") [] (ErrCollaborator "yaml: did not find expected node")).
  reflexivity.
Defined.

Lemma AddRoutes_twice_on_sample :
  AddRoutes "myapp" ["http://10.10.10.12:8080"; "http://10.10.10.13:8080"]
    (fst (AddRoutes "myapp" ["http://10.10.10.12:8080"; "http://10.10.10.13:8080"]
            sampleRegistry))
  = (fst (AddRoutes "myapp" ["http://10.10.10.12:8080"; "http://10.10.10.13:8080"]
            sampleRegistry), None).
Proof.
  apply (@AddRoutes_twice sampleRouterPkg "myapp" "myapp" ["http://10.10.10.10:8080"]);
    reflexivity.
Defined.
